(** * Migrations: a shallow embedding of [migrations_server.js]

    The development follows the source file top to bottom: JavaScript
    values and operators, the step list [_list] with [add], the control
    document of the [migrations] collection, and the asynchronous engine
    ([migrateTo], [_migrateTo] with its inner functions [migrate], [lock],
    [unlock], [updateVersion]).

    Asynchronous functions are embedded as trees of collection
    operations: every [await] on the collection or on a step body is one
    node.  The same tree is run alone ([exec]) or interleaved with another
    caller ([par]).

    Numbers are exact rationals plus [NaN]; the rounding of IEEE doubles
    and the infinities are outside the model.  Logging is treated as a
    no-op collaborator. *)

From Stdlib Require Import List String Ascii Bool Arith ZArith QArith Lia.
From Stdlib Require Import Qround Permutation Sorted.
Import ListNotations.
Local Open Scope string_scope.
Local Open Scope Z_scope.

(* ================================================================== *)
(** ** JavaScript values *)

Module Js.

(** A JavaScript number: a rational, or NaN. *)
Inductive number : Type :=
| Num (q : Q)
| NaN.

(** What happens when a step body is awaited: it resolves, or it throws
    (rejects) with some payload. *)
Inductive outcome : Type :=
| Resolves
| Rejects (payload : string).

(** The values a migration object's fields can hold.  A function is
    represented by the outcome of awaiting a call to it. *)
Inductive value : Type :=
| VUndefined
| VBoolean (b : bool)
| VNumber (n : number)
| VString (s : string)
| VFunction (body : outcome).

Inductive type_tag : Type :=
| TUndefined | TBoolean | TNumber | TString | TFunction.

(** [typeof v] *)
Definition typeof (v : value) : type_tag :=
  match v with
  | VUndefined => TUndefined
  | VBoolean _ => TBoolean
  | VNumber _ => TNumber
  | VString _ => TString
  | VFunction _ => TFunction
  end.

Definition type_tag_eqb (a b : type_tag) : bool :=
  match a, b with
  | TUndefined, TUndefined | TBoolean, TBoolean | TNumber, TNumber
  | TString, TString | TFunction, TFunction => true
  | _, _ => false
  end.

(** [a < b] on numbers: false as soon as one side is NaN. *)
Definition lt (a b : number) : bool :=
  match a, b with
  | Num x, Num y => match (x ?= y)%Q with Lt => true | _ => false end
  | _, _ => false
  end.

(** [a > b] *)
Definition gt (a b : number) : bool := lt b a.

(** [a <= b] *)
Definition le (a b : number) : bool :=
  match a, b with
  | Num x, Num y => match (x ?= y)%Q with Gt => false | _ => true end
  | _, _ => false
  end.

(** [a === b] on numbers: NaN differs from everything, itself included. *)
Definition strict_eq (a b : number) : bool :=
  match a, b with
  | Num x, Num y => match (x ?= y)%Q with Eq => true | _ => false end
  | _, _ => false
  end.

Definition is_integer (n : number) : bool :=
  match n with
  | Num q => Qeq_bool q (inject_Z (Qfloor q))
  | NaN => false
  end.

Definition of_Z (z : Z) : number := Num (inject_Z z).

End Js.

Coercion Js.of_Z : Z >-> Js.number.

(* ================================================================== *)
(** ** Errors *)

Inductive direction : Type := up_ | down_.

(** The exceptions the file can raise, one constructor per [throw] site,
    and [StepFailed] for whatever a step body throws. *)
Inductive error : Type :=
| MustSupplyUp                                  (* add, line 143 *)
| MustSupplyVersion                             (* add, line 146 *)
| VersionMustBePositive                         (* add, line 149 *)
| InvalidCommand                                (* migrateTo, line 173 *)
| CannotMigrate (d : direction) (v : Js.number) (* migrate, line 265 *)
| CantFindVersion (v : Js.number)               (* _findIndexByVersion, line 380 *)
| TypeError                                     (* a property read on undefined *)
| StepFailed (payload : string).                (* thrown by a step body *)

(** The three [add] failures are the spec's [InvalidStep]. *)
Definition is_InvalidStep (e : error) : bool :=
  match e with
  | MustSupplyUp | MustSupplyVersion | VersionMustBePositive => true
  | _ => false
  end.

Inductive result (A : Type) : Type :=
| Ok (a : A)
| Err (e : error).
Arguments Ok {A} a.
Arguments Err {A} e.

(* ================================================================== *)
(** ** Migration objects and the step list *)

(** The object literal handed to [Migrations.add]: any field may hold any
    value. *)
Record candidate : Type := mkCandidate {
  c_version : Js.value;
  c_name : Js.value;
  c_up : Js.value;
  c_down : Js.value
}.

(** An element of [_list].  [version] is a number there ([add] has checked
    it); [frozen] records [Object.freeze]. *)
Record migration : Type := mkMigration {
  version : Js.number;
  name : Js.value;
  up : Js.value;
  down : Js.value;
  frozen : bool
}.

(** [const DefaultMigration = { version: 0, up: function() {} }] *)
Definition DefaultMigration : migration :=
  {| version := 0%Z; name := Js.VUndefined; up := Js.VFunction Js.Resolves;
     down := Js.VUndefined; frozen := false |}.

(** [Object.freeze(migration)] *)
Definition Object_freeze (m : migration) : migration :=
  {| version := version m; name := name m; up := up m; down := down m;
     frozen := true |}.



(** The comparator of line 155:
    [a.version > b.version ? 1 : b.version > a.version ? -1 : 0] *)
Definition compare_versions (a b : migration) : Z :=
  if Js.gt (version a) (version b) then 1
  else if Js.gt (version b) (version a) then -1
  else 0.

(** [Array.prototype.sort(cmp)] is a stable sort: an element moves in front
    of another one only when the comparator orders them strictly. *)
Fixpoint sort_insert (cmp : migration -> migration -> Z) (x : migration)
                     (l : list migration) : list migration :=
  match l with
  | [] => [x]
  | y :: ys => if cmp x y <=? 0 then x :: y :: ys
               else y :: sort_insert cmp x ys
  end.

Fixpoint sort (cmp : migration -> migration -> Z) (l : list migration)
  : list migration :=
  match l with
  | [] => []
  | x :: xs => sort_insert cmp x (sort cmp xs)
  end.

(** [Migrations._list] initially. *)
Definition initial_list : list migration := [DefaultMigration].

(** [Migrations.add] (lines 141-158).  The frozen object itself is what
    the list holds. *)
Definition add (_list : list migration) (c : candidate)
  : result (list migration) :=
  if negb (Js.type_tag_eqb (Js.typeof (c_up c)) Js.TFunction) then
    Err MustSupplyUp
  else
    match c_version c with
    | Js.VNumber v =>
        if Js.le v 0%Z then Err VersionMustBePositive
        else
          let m := Object_freeze
                     {| version := v; name := c_name c; up := c_up c;
                        down := c_down c; frozen := false |} in
          Ok (sort compare_versions (_list ++ [m]))
    | _ => Err MustSupplyVersion
    end.

(** A run of [add] calls, stopping at the first one that throws. *)
Fixpoint add_all (_list : list migration) (cs : list candidate)
  : result (list migration) :=
  match cs with
  | [] => Ok _list
  | c :: cs' => match add _list c with
                | Ok l' => add_all l' cs'
                | Err e => Err e
                end
  end.

(** [Migrations._findIndexByVersion] (lines 375-381). *)
Fixpoint find_from (i : nat) (l : list migration) (v : Js.number)
  : result nat :=
  match l with
  | [] => Err (CantFindVersion v)
  | m :: ms => if Js.strict_eq (version m) v then Ok i
               else find_from (S i) ms v
  end.

Definition _findIndexByVersion (_list : list migration) (v : Js.number)
  : result nat :=
  find_from 0 _list v.

(* ================================================================== *)
(** ** The control document and the collection *)

(** The object passed to and returned by [_setControl]:
    [{ version, locked }]. *)
Record control : Type := mkControl {
  ctl_version : Js.number;
  ctl_locked : bool
}.

(** The stored document [{ _id: 'control', version, locked, lockedAt }]. *)
Record control_doc : Type := mkDoc {
  doc_version : Js.number;
  doc_locked : bool;
  doc_lockedAt : nat
}.

(** The collection holds at most the control document; [now] is the clock
    read by [new Date()]. *)
Record db : Type := mkDb {
  stored : option control_doc;
  now : nat
}.

(** A selector is [{ _id: 'control' }], possibly with a [locked] field. *)
Record selector : Type := mkSel { sel_locked : option bool }.

(** A [$set] modifier: the fields it names.  [set_lockedAt] stands for
    [lockedAt: new Date()]. *)
Record modifier : Type := mkMod {
  set_version : option Js.number;
  set_locked : option bool;
  set_lockedAt : bool
}.

Definition matches (s : selector) (d : control_doc) : bool :=
  match sel_locked s with
  | None => true
  | Some b => Bool.eqb (doc_locked d) b
  end.

Definition apply_set (m : modifier) (t : nat) (d : control_doc) : control_doc :=
  {| doc_version := match set_version m with Some v => v | None => doc_version d end;
     doc_locked := match set_locked m with Some b => b | None => doc_locked d end;
     doc_lockedAt := if set_lockedAt m then t else doc_lockedAt d |}.

(** The document an upsert inserts: the selector's equality fields, then
    the [$set] fields. *)
Definition upserted (s : selector) (m : modifier) (t : nat) : control_doc :=
  apply_set m t
    {| doc_version := Js.NaN;
       doc_locked := match sel_locked s with Some b => b | None => false end;
       doc_lockedAt := 0%nat |}.

(** [collection.updateAsync(selector, {$set: ...}, {upsert})]: one atomic
    operation; the answer is the number of documents affected.  (An upsert
    whose selector misses an existing control document would be a
    duplicate-key error; the file never issues one.) *)
Definition updateAsync (s : selector) (m : modifier) (upsert : bool) (c : db)
  : nat * db :=
  match stored c with
  | Some d =>
      if matches s d
      then (1%nat, {| stored := Some (apply_set m (now c) d); now := S (now c) |})
      else (0%nat, {| stored := Some d; now := S (now c) |})
  | None =>
      if upsert
      then (1%nat, {| stored := Some (upserted s m (now c)); now := S (now c) |})
      else (0%nat, {| stored := None; now := S (now c) |})
  end.

(** [collection.findOneAsync({ _id: 'control' })] *)
Definition findOneAsync (c : db) : option control_doc * db :=
  (stored c, {| stored := stored c; now := S (now c) |}).

(* ================================================================== *)
(** ** Asynchronous code as trees of awaited operations *)

(** One node per [await]: a collection operation, or the call of a step
    body with its argument list.  [Exit] is [process.exit]. *)
Inductive prog (A : Type) : Type :=
| Return (a : A)
| FindOne (k : option control_doc -> prog A)
| Update (s : selector) (m : modifier) (upsert : bool) (k : nat -> prog A)
| Call (d : direction) (callee : migration) (args : list migration)
       (k : Js.outcome -> prog A)
| Exit (code : Z).
Arguments Return {A} a.
Arguments FindOne {A} k.
Arguments Update {A} s m upsert k.
Arguments Call {A} d callee args k.
Arguments Exit {A} code.

Fixpoint bind {A B : Type} (p : prog A) (f : A -> prog B) : prog B :=
  match p with
  | Return a => f a
  | FindOne k => FindOne (fun r => bind (k r) f)
  | Update s m u k => Update s m u (fun r => bind (k r) f)
  | Call d c a k => Call d c a (fun r => bind (k r) f)
  | Exit code => Exit code
  end.

Notation "x <- p ;; q" := (bind p (fun x => q))
  (at level 61, p at next level, right associativity).

(** Sequencing of code that may throw: an exception skips the rest. *)
Definition and_then {A B : Type} (p : prog (result A)) (f : A -> prog (result B))
  : prog (result B) :=
  r <- p ;; match r with Ok a => f a | Err e => Return (Err e) end.

Notation "x <-? p ;; q" := (and_then p (fun x => q))
  (at level 61, p at next level, right associativity).

(** What the collection and the step bodies can observe. *)
Inductive event : Type :=
| EFindOne
| EUpdate (s : selector) (m : modifier) (upsert : bool) (count : nat)
| ECall (d : direction) (callee : migration) (args : list migration)
| EExit (code : Z).

Inductive final (A : Type) : Type :=
| Returned (a : A)
| Exited (code : Z).
Arguments Returned {A} a.
Arguments Exited {A} code.

(** The function value [migration[direction]]. *)
Definition method (d : direction) (m : migration) : Js.value :=
  match d with up_ => up m | down_ => down m end.

(** Awaiting a call of function value [f]; calling anything else is a
    type error. *)
Definition await_call (f : Js.value) : Js.outcome :=
  match f with
  | Js.VFunction body => body
  | _ => Js.Rejects "is not a function"
  end.

(** Running a tree alone against the collection, recording the events in
    order. *)
Fixpoint exec {A : Type} (p : prog A) (c : db) : final A * db * list event :=
  match p with
  | Return a => (Returned a, c, [])
  | FindOne k =>
      let '(r, c1) := findOneAsync c in
      let '(x, c2, t) := exec (k r) c1 in (x, c2, EFindOne :: t)
  | Update s m u k =>
      let '(n, c1) := updateAsync s m u c in
      let '(x, c2, t) := exec (k n) c1 in (x, c2, EUpdate s m u n :: t)
  | Call d callee args k =>
      let '(x, c2, t) := exec (k (await_call (method d callee))) c in
      (x, c2, ECall d callee args :: t)
  | Exit code => (Exited code, c, [EExit code])
  end.

(** Several callers share the collection.  A caller that has started runs
    until its next [await]; the awaited operation is then performed
    atomically.  [next p c] performs the pending operation of [p]; it is
    [None] once [p] has returned or exited. *)
Definition next {A : Type} (p : prog A) (c : db)
  : option (prog A * db * event) :=
  match p with
  | Return _ => None
  | FindOne k =>
      let '(r, c1) := findOneAsync c in Some (k r, c1, EFindOne)
  | Update s m u k =>
      let '(n, c1) := updateAsync s m u c in Some (k n, c1, EUpdate s m u n)
  | Call d callee args k =>
      Some (k (await_call (method d callee)), c, ECall d callee args)
  | Exit _ => None
  end.

(** Two callers interleaved by a schedule: [true] lets the first one
    perform its pending operation, [false] the second one; the turn of a
    finished caller is skipped.  The result is what is left of each, the
    collection, and the operations in the order they happened, tagged with
    the caller. *)
Fixpoint par {A : Type} (sched : list bool) (p q : prog A) (c : db)
  : prog A * prog A * db * list (bool * event) :=
  match sched with
  | [] => (p, q, c, [])
  | true :: sched' =>
      match next p c with
      | Some (p', c', e) =>
          let '(pf, qf, cf, t) := par sched' p' q c' in (pf, qf, cf, (true, e) :: t)
      | None => par sched' p q c
      end
  | false :: sched' =>
      match next q c with
      | Some (q', c', e) =>
          let '(pf, qf, cf, t) := par sched' p q' c' in (pf, qf, cf, (false, e) :: t)
      | None => par sched' p q c
      end
  end.

(** The operations of one caller in a tagged trace. *)
Definition events_of (who : bool) (t : list (bool * event)) : list event :=
  map snd (filter (fun x => Bool.eqb (fst x) who) t).

(* ================================================================== *)
(** ** The engine *)

Section Engine.

(** [this._list] / [self._list] *)
Variable _list : list migration.

(** [Migrations._setControl] (lines 349-367).  The two [check] calls hold
    by typing: [version] is a number and [locked] a boolean. *)
Definition _setControl (ctl : control) : prog control :=
  Update {| sel_locked := None |}
         {| set_version := Some (ctl_version ctl);
            set_locked := Some (ctl_locked ctl);
            set_lockedAt := true |}
         true
         (fun _ => Return ctl).

(** [Migrations._getControl] (lines 335-339). *)
Definition _getControl : prog control :=
  FindOne (fun found =>
    match found with
    | Some d => Return {| ctl_version := doc_version d; ctl_locked := doc_locked d |}
    | None => _setControl {| ctl_version := 0%Z; ctl_locked := false |}
    end).

(** [Migrations.getVersion] (lines 198-201). *)
Definition getVersion : prog Js.number :=
  control <- _getControl ;; Return (ctl_version control).

(** [Migrations.unlock] (lines 397-402): the public one. *)
Definition Migrations_unlock : prog nat :=
  Update {| sel_locked := None |}
         {| set_version := None; set_locked := Some false; set_lockedAt := false |}
         false
         (fun n => Return n).

(** The inner [lock] (lines 287-296). *)
Definition lock : prog bool :=
  Update {| sel_locked := Some false |}
         {| set_version := None; set_locked := Some true; set_lockedAt := true |}
         false
         (fun result => Return (Nat.eqb result 1)).

(** The inner [unlock] (lines 299-301); [currentVersion] is the closure
    variable at the time of the call. *)
Definition unlock (currentVersion : Js.number) : prog unit :=
  _ <- _setControl {| ctl_version := currentVersion; ctl_locked := false |} ;;
  Return tt.

(** The inner [updateVersion] (lines 303-305). *)
Definition updateVersion (currentVersion : Js.number) : prog unit :=
  _ <- _setControl {| ctl_version := currentVersion; ctl_locked := true |} ;;
  Return tt.

(** The inner [migrate] (lines 260-284).  [self._list[idx]] out of range is
    [undefined], whose property read is a type error. *)
Definition migrate (currentVersion : Js.number) (d : direction) (idx : nat)
  : prog (result unit) :=
  match nth_error _list idx with
  | None => Return (Err TypeError)
  | Some migration =>
      if negb (Js.type_tag_eqb (Js.typeof (method d migration)) Js.TFunction)
      then
        _ <- unlock currentVersion ;;
        Return (Err (CannotMigrate d (version migration)))
      else
        Call d migration [migration] (fun r =>
          match r with
          | Js.Resolves => Return (Ok tt)
          | Js.Rejects payload => Return (Err (StepFailed payload))
          end)
  end.

(** [self._list[i].version] *)
Definition version_at (i : nat) : result Js.number :=
  match nth_error _list i with
  | Some m => Ok (version m)
  | None => Err TypeError
  end.

(** The loop of lines 309-313, [n] iterations left, [i] the loop variable.
    It yields the final [currentVersion] together with how the block
    completed. *)
Fixpoint loop_up (n : nat) (i : nat) (currentVersion : Js.number)
  : prog (Js.number * result unit) :=
  match n with
  | O => Return (currentVersion, Ok tt)
  | S n' =>
      r <- migrate currentVersion up_ (i + 1) ;;
      match r with
      | Err e => Return (currentVersion, Err e)
      | Ok _ =>
          match version_at (i + 1) with
          | Err e => Return (currentVersion, Err e)
          | Ok v =>
              _ <- updateVersion v ;;
              loop_up n' (i + 1) v
          end
      end
  end.

(** The loop of lines 315-319. *)
Fixpoint loop_down (n : nat) (i : nat) (currentVersion : Js.number)
  : prog (Js.number * result unit) :=
  match n with
  | O => Return (currentVersion, Ok tt)
  | S n' =>
      r <- migrate currentVersion down_ i ;;
      match r with
      | Err e => Return (currentVersion, Err e)
      | Ok _ =>
          match version_at (i - 1) with
          | Err e => Return (currentVersion, Err e)
          | Ok v =>
              _ <- updateVersion v ;;
              loop_down n' (i - 1) v
          end
      end
  end.

(** Lines 307-327: the [try] block, then [finally { await unlock() }] with
    the [currentVersion] the block left, then the rethrow. *)
Definition run_steps (currentVersion version : Js.number)
                     (startIdx endIdx : nat) : prog (result unit) :=
  done <- (if Js.lt currentVersion version
           then loop_up (endIdx - startIdx) startIdx currentVersion
           else loop_down (startIdx - endIdx) startIdx currentVersion) ;;
  _ <- unlock (fst done) ;;
  Return (snd done).

(** Lines 229-241: the rerun branch. *)
Definition rerun_step (currentVersion version : Js.number)
  : prog (result unit) :=
  r <- (idx <-? Return (_findIndexByVersion _list version) ;;
        migrate currentVersion up_ idx) ;;
  _ <- unlock currentVersion ;;
  Return r.

(** Everything after the fast-path test (lines 223-327). *)
Definition locked_run (currentVersion version : Js.number) (rerun : bool)
  : prog (result unit) :=
  isLocked <- lock ;;
  if Bool.eqb isLocked false then Return (Ok tt)
  else if rerun then rerun_step currentVersion version
  else
    startIdx <-? Return (_findIndexByVersion _list currentVersion) ;;
    endIdx <-? Return (_findIndexByVersion _list version) ;;
    run_steps currentVersion version startIdx endIdx.

(** [Migrations._migrateTo] (lines 210-328). *)
Definition _migrateTo (version : Js.number) (rerun : bool)
  : prog (result unit) :=
  control <- _getControl ;;
  let currentVersion := ctl_version control in
  if negb rerun && Js.strict_eq currentVersion version
  then Return (Ok tt)
  else locked_run currentVersion version rerun.

End Engine.

(** [collection.removeAsync({})]: every document goes; the answer is how
    many there were. *)
Definition removeAsync (c : db) : nat * db :=
  (match stored c with Some _ => 1%nat | None => 0%nat end,
   {| stored := None; now := S (now c) |}).

(** [Migrations._reset] (lines 388-391): [_list] becomes a new list holding
    a new sentinel object, and the collection is emptied.  The result is
    the new list, the answer of [removeAsync] and the collection. *)
Definition _reset (c : db) : list migration * nat * db :=
  let '(removed, c') := removeAsync c in
  ([{| version := 0%Z; name := Js.VUndefined; up := Js.VFunction Js.Resolves;
       down := Js.VUndefined; frozen := false |}],
   removed, c').

(* ================================================================== *)
(** ** Commands *)

(** The argument of [migrateTo]: nothing, a number or a string. *)
Inductive command : Type :=
| CmdUndefined
| CmdNumber (n : Js.number)
| CmdString (s : string).

(** [s.split(sep)] for a one-character separator. *)
Fixpoint split (sep : ascii) (s : string) : list string :=
  match s with
  | EmptyString => [EmptyString]
  | String c rest =>
      if Ascii.eqb c sep then EmptyString :: split sep rest
      else match split sep rest with
           | piece :: pieces => String c piece :: pieces
           | [] => [String c EmptyString]
           end
  end.

(** The white space of ASCII: TAB, LF, VT, FF, CR and the space.  Strings
    are modelled with 8-bit characters; the white space that JavaScript has
    outside ASCII (U+00A0, U+FEFF and others) is not told apart, so what is
    proved about [parseInt] of a string is stated for digit strings or for
    strings of ASCII characters ([ascii_only]). *)
Definition is_white_space (c : ascii) : bool :=
  let n := nat_of_ascii c in
  ((9 <=? n) && (n <=? 13) || (n =? 32))%nat.

Fixpoint trim_start (s : string) : string :=
  match s with
  | String c rest => if is_white_space c then trim_start rest else s
  | EmptyString => s
  end.

(** The value of [c] as a digit in the given radix (10 or 16). *)
Definition digit_value (radix : Z) (c : ascii) : option Z :=
  let n := Z.of_nat (nat_of_ascii c) in
  if (48 <=? n) && (n <=? 57) then Some (n - 48)
  else if radix =? 16 then
    if (97 <=? n) && (n <=? 102) then Some (n - 87)
    else if (65 <=? n) && (n <=? 70) then Some (n - 55)
    else None
  else None.

(** The longest prefix of digits, as a number; [None] when it is empty. *)
Fixpoint leading_digits (radix : Z) (s : string) (acc : option Z) : option Z :=
  match s with
  | String c rest =>
      match digit_value radix c with
      | Some d =>
          leading_digits radix rest
            (Some (radix * match acc with Some a => a | None => 0 end + d))
      | None => acc
      end
  | EmptyString => acc
  end.

Fixpoint ascii_only (s : string) : bool :=
  match s with
  | String c rest => (nat_of_ascii c <? 128)%nat && ascii_only rest
  | EmptyString => true
  end.

(** [parseInt(s)] with no radix argument, for a string of ASCII characters
    whose digits make a number that a double holds exactly. *)
Definition parseInt_string (s : string) : Js.number :=
  let s1 := trim_start s in
  let '(sign, s2) :=
    match s1 with
    | String "-" rest => (-1, rest)
    | String "+" rest => (1, rest)
    | _ => (1, s1)
    end in
  let '(radix, s3) :=
    match s2 with
    | String "0" (String "x" rest) => (16, rest)
    | String "0" (String "X" rest) => (16, rest)
    | _ => (10, s2)
    end in
  match leading_digits radix s3 None with
  | Some n => Js.of_Z (sign * n)
  | None => Js.NaN
  end.

(** [parseInt(n)] for a number goes through its rendering as a string; for
    a number rendered without exponent (magnitude from 1e-6 up to 1e21)
    that is truncation toward zero, which is what is modelled. *)
Definition parseInt_number (n : Js.number) : Js.number :=
  match n with
  | Js.Num q => Js.of_Z (Z.quot (Qnum q) (Zpos (Qden q)))
  | Js.NaN => Js.NaN
  end.

Definition parseInt (v : Js.number + string) : Js.number :=
  match v with
  | inl n => parseInt_number n
  | inr s => parseInt_string s
  end.

Definition is_string (v : Js.number + string) (lit : string) : bool :=
  match v with
  | inr s => String.eqb s lit
  | inl _ => false
  end.

Definition is_subcommand (sub : option string) (lit : string) : bool :=
  match sub with
  | Some s => String.eqb s lit
  | None => false
  end.

(** [Migrations.migrateTo] (lines 167-192). *)
Definition migrateTo (_list : list migration) (cmd : command)
  : prog (result unit) :=
  if match cmd with CmdUndefined => true | _ => false end
     || match cmd with CmdString s => String.eqb s "" | _ => false end
     || Nat.eqb (List.length _list) 0
  then Return (Err InvalidCommand)
  else
    let '(version, subcommand) :=
      match cmd with
      | CmdString s => (inr (hd "" (split "," s)), nth_error (split "," s) 1)
      | CmdNumber n => (inl n, None)
      | CmdUndefined => (inl Js.NaN, None)
      end in
    _ <-? (if is_string version "latest"
           then
             latest <-? Return (version_at _list (List.length _list - 1)) ;;
             _migrateTo _list latest false
           else
             _migrateTo _list (parseInt version) (is_subcommand subcommand "rerun")) ;;
    if is_subcommand subcommand "exit" then Exit 0 else Return (Ok tt).

(* ================================================================== *)
(** * Properties *)

(** ** Numbers *)

Definition finite (n : Js.number) : Prop := n <> Js.NaN.

Lemma gt_false_le (a b : Js.number) :
  finite a -> finite b -> Js.gt a b = false -> Js.le a b = true.
Proof.
  destruct a as [x|], b as [y|]; unfold finite; try congruence.
  intros _ _. unfold Js.gt, Js.lt, Js.le.
  rewrite <- (Qcompare_antisym x y).
  destruct (x ?= y)%Q; simpl; congruence.
Qed.

Lemma gt_true_le (a b : Js.number) : Js.gt a b = true -> Js.le b a = true.
Proof.
  destruct a as [x|], b as [y|]; unfold Js.gt, Js.lt, Js.le; try discriminate.
  destruct (y ?= x)%Q; congruence.
Qed.

Lemma le_trans (a b c : Js.number) :
  Js.le a b = true -> Js.le b c = true -> Js.le a c = true.
Proof.
  destruct a as [x|], b as [y|], c as [z|]; unfold Js.le; try discriminate.
  intros H1 H2.
  assert (Hxy : (x <= y)%Q).
  { apply Qle_alt. destruct (x ?= y)%Q; congruence. }
  assert (Hyz : (y <= z)%Q).
  { apply Qle_alt. destruct (y ?= z)%Q; congruence. }
  pose proof (Qle_trans _ _ _ Hxy Hyz) as Hxz.
  pose proof (proj1 (Qle_alt x z) Hxz) as Hc.
  destruct (x ?= z)%Q; try reflexivity. now elim Hc.
Qed.


(** ** The stable sort *)

Lemma compare_versions_le0 (a b : migration) :
  (compare_versions a b <=? 0) = negb (Js.gt (version a) (version b)).
Proof.
  unfold compare_versions.
  destruct (Js.gt (version a) (version b)); [reflexivity|].
  destruct (Js.gt (version b) (version a)); reflexivity.
Qed.

Lemma sort_insert_perm cmp x l : Permutation (x :: l) (sort_insert cmp x l).
Proof.
  induction l as [|y ys IH]; simpl; [constructor; constructor|].
  destruct (cmp x y <=? 0); [apply Permutation_refl|].
  eapply perm_trans; [apply perm_swap|]. now constructor.
Qed.

Lemma sort_perm cmp l : Permutation l (sort cmp l).
Proof.
  induction l as [|x xs IH]; simpl; [constructor|].
  eapply perm_trans; [|apply sort_insert_perm]. now constructor.
Qed.

Definition ascending (a b : migration) : Prop :=
  Js.le (version a) (version b) = true.

Lemma sort_insert_sorted x l :
  finite (version x) -> Forall (fun m => finite (version m)) l ->
  StronglySorted ascending l ->
  StronglySorted ascending (sort_insert compare_versions x l).
Proof.
  intros Hx Hl Hs. induction l as [|y ys IH]; simpl.
  - constructor; constructor.
  - inversion Hl as [|? ? Hy Hys]; subst.
    inversion Hs as [|? ? Hs' Hall]; subst.
    rewrite compare_versions_le0.
    destruct (Js.gt (version x) (version y)) eqn:G; simpl.
    + constructor; [now apply IH|].
      eapply Permutation_Forall; [apply sort_insert_perm|].
      constructor; [|assumption]. now apply gt_true_le.
    + assert (Hxy : ascending x y) by now apply gt_false_le.
      constructor; [assumption|].
      constructor; [assumption|].
      eapply Forall_impl; [|exact Hall].
      intros z Hz. exact (le_trans _ _ _ Hxy Hz).
Qed.

Lemma sort_sorted l :
  Forall (fun m => finite (version m)) l ->
  StronglySorted ascending (sort compare_versions l).
Proof.
  induction l as [|x xs IH]; intros H; simpl; [constructor|].
  inversion H; subst.
  apply sort_insert_sorted; auto.
  eapply Permutation_Forall; [apply sort_perm|assumption].
Qed.




(** ** [add] *)

Definition callable (v : Js.value) : bool :=
  Js.type_tag_eqb (Js.typeof v) Js.TFunction.

(** The object [add] puts in the list for an accepted candidate. *)
Definition stored_step (c : candidate) : migration :=
  Object_freeze
    {| version := match c_version c with Js.VNumber v => v | _ => Js.NaN end;
       name := c_name c; up := c_up c; down := c_down c; frozen := false |}.

Lemma add_Ok_inv l c l' :
  add l c = Ok l' ->
  callable (c_up c) = true
  /\ (exists v, c_version c = Js.VNumber v /\ Js.le v 0%Z = false)
  /\ l' = sort compare_versions (l ++ [stored_step c]).
Proof.
  unfold add, callable, stored_step.
  destruct (Js.type_tag_eqb (Js.typeof (c_up c)) Js.TFunction); simpl;
    [|discriminate].
  destruct (c_version c) as [| |v| |]; try discriminate.
  destruct (Js.le v 0%Z) eqn:E; [discriminate|].
  intros H; inversion H; subst. repeat split. now exists v.
Qed.

Lemma le_false_lt_false (v w : Js.number) :
  Js.le v w = false -> Js.lt v w = false.
Proof.
  destruct v as [x|], w as [y|]; unfold Js.le, Js.lt; try reflexivity.
  destruct (x ?= y)%Q; congruence.
Qed.

Definition not_below_zero (m : migration) : Prop :=
  Js.lt (version m) 0%Z = false.

Lemma sentinel_first (r : list migration) :
  Forall not_below_zero r ->
  sort compare_versions (DefaultMigration :: r)
  = DefaultMigration :: sort compare_versions r.
Proof.
  intros H. simpl.
  assert (H' : Forall not_below_zero (sort compare_versions r))
    by (eapply Permutation_Forall; [apply sort_perm|assumption]).
  destruct (sort compare_versions r) as [|y ys]; [reflexivity|].
  simpl. rewrite compare_versions_le0.
  inversion H' as [|? ? Hy _]; subst.
  unfold not_below_zero in Hy. unfold Js.gt.
  change (version DefaultMigration) with (Js.of_Z 0).
  now rewrite Hy.
Qed.

Lemma add_all_perm cs : forall l0 l,
  add_all l0 cs = Ok l -> Permutation l (l0 ++ map stored_step cs).
Proof.
  induction cs as [|c cs IH]; intros l0 l H; simpl in *.
  - inversion H; subst. rewrite app_nil_r. apply Permutation_refl.
  - destruct (add l0 c) as [l1|] eqn:A; [|discriminate].
    apply add_Ok_inv in A. destruct A as (_ & _ & ->).
    eapply perm_trans; [apply (IH _ _ H)|].
    change (stored_step c :: map stored_step cs)
      with ([stored_step c] ++ map stored_step cs)%list.
    rewrite app_assoc. apply Permutation_app_tail.
    apply Permutation_sym, sort_perm.
Qed.


Definition ordinary (c : candidate) : Prop :=
  c_version c <> Js.VNumber Js.NaN.

Lemma add_all_sorted cs : forall l0 l,
  Forall ordinary cs ->
  Forall (fun m => finite (version m)) l0 ->
  StronglySorted ascending l0 ->
  add_all l0 cs = Ok l ->
  StronglySorted ascending l.
Proof.
  induction cs as [|c cs IH]; intros l0 l Hcs Hfin Hs H; simpl in *.
  - now inversion H; subst.
  - destruct (add l0 c) as [l1|] eqn:A; [|discriminate].
    apply add_Ok_inv in A. destruct A as (_ & (v & Hv & _) & ->).
    inversion Hcs as [|? ? Hc Hcs']; subst.
    assert (F : Forall (fun m => finite (version m)) (l0 ++ [stored_step c])).
    { apply Forall_app; split; [assumption|]. constructor; [|constructor].
      unfold stored_step, ordinary, finite in *; simpl. rewrite Hv in *.
      congruence. }
    refine (IH _ _ Hcs' _ _ H).
    + eapply Permutation_Forall; [apply sort_perm|exact F].
    + now apply sort_sorted.
Qed.

Lemma add_all_sentinel cs : forall r0 l,
  Forall not_below_zero r0 ->
  add_all (DefaultMigration :: r0) cs = Ok l ->
  exists r, l = DefaultMigration :: r /\ Forall not_below_zero r.
Proof.
  induction cs as [|c cs IH]; intros r0 l Hr H; simpl in *.
  - inversion H; subst. now exists r0.
  - destruct (add (DefaultMigration :: r0) c) as [l1|] eqn:A; [|discriminate].
    apply add_Ok_inv in A. destruct A as (_ & (v & Hv & Hpos) & ->).
    assert (F : Forall not_below_zero (r0 ++ [stored_step c])).
    { apply Forall_app; split; [assumption|]. constructor; [|constructor].
      unfold not_below_zero, stored_step; simpl. rewrite Hv.
      now apply le_false_lt_false. }
    simpl app in H. rewrite (sentinel_first _ F) in H.
    refine (IH _ _ _ H).
    eapply Permutation_Forall; [apply sort_perm|exact F].
Qed.


(** A step list produced by [add] calls from the initial one. *)
Definition registry (l : list migration) : Prop :=
  exists cs, add_all initial_list cs = Ok l.

Lemma add_all_callable cs : forall l0 l,
  Forall (fun m => callable (up m) = true) l0 ->
  add_all l0 cs = Ok l ->
  Forall (fun m => callable (up m) = true) l.
Proof.
  induction cs as [|c cs IH]; intros l0 l H0 H; simpl in *.
  - now inversion H; subst.
  - destruct (add l0 c) as [l1|] eqn:A; [|discriminate].
    apply add_Ok_inv in A. destruct A as (Hup & _ & ->).
    refine (IH _ _ _ H).
    eapply Permutation_Forall; [apply sort_perm|].
    apply Forall_app; split; [assumption|]. now repeat constructor.
Qed.

Lemma registry_callable l :
  registry l -> Forall (fun m => callable (up m) = true) l.
Proof.
  intros [cs H]. refine (add_all_callable cs _ _ _ H).
  now repeat constructor.
Qed.

Lemma registry_nonempty l : registry l -> l <> [].
Proof.
  intros [cs H] ->.
  destruct (add_all_sentinel cs [] [] (Forall_nil _) H) as (r & E & _).
  discriminate.
Qed.

(** A candidate with the given version, name and bodies. *)
Definition step (v : Js.number) (nm : string) (u d : Js.value) : candidate :=
  {| c_version := Js.VNumber v; c_name := Js.VString nm;
     c_up := u; c_down := d |}.

Definition resolving : Js.value := Js.VFunction Js.Resolves.

(** *** Which candidates [add] rejects *)

Definition fails_InvalidStep (r : result (list migration)) : Prop :=
  exists e, r = Err e /\ is_InvalidStep e = true.

(** "[version] is a positive integer" *)
Definition positive_integer (v : Js.value) : bool :=
  match v with
  | Js.VNumber n => Js.is_integer n && Js.lt 0%Z n
  | _ => false
  end.

(** The rejection rule with an integrality test in it. *)
Definition rejects_non_integers (l : list migration) (c : candidate) : Prop :=
  fails_InvalidStep (add l c)
  <-> (callable (c_up c) = false \/ positive_integer (c_version c) = false).

Definition one_and_a_half : candidate :=
  step (Js.Num (3 # 2)) "half" resolving Js.VUndefined.

(** C5, as stated, fails: version 1.5 is not an integer, and [add]
    accepts it. *)
Lemma add_accepts_one_and_a_half :
  ~ rejects_non_integers initial_list one_and_a_half.
Proof.
  unfold rejects_non_integers. intros [_ H].
  destruct H as (e & E & _); [right; reflexivity|].
  vm_compute in E. discriminate.
Qed.

(** C5, amended: [add] throws one of its three errors exactly when [up] is
    not a function, or [version] is not of type number, or [version <= 0];
    there is no integrality test, so a positive non-integer number is
    accepted. *)
Theorem add_rejects_iff (l : list migration) (c : candidate) :
  fails_InvalidStep (add l c)
  <-> (callable (c_up c) = false
       \/ Js.typeof (c_version c) <> Js.TNumber
       \/ exists n, c_version c = Js.VNumber n /\ Js.le n 0%Z = true).
Proof.
  unfold fails_InvalidStep, add, callable.
  destruct (Js.type_tag_eqb (Js.typeof (c_up c)) Js.TFunction); simpl.
  - destruct (c_version c) as [| |v| |] eqn:V; simpl;
      try (split; [intros _; right; left; discriminate
                  | intros _; eexists; split; reflexivity]).
    destruct (Js.le v 0%Z) eqn:L.
    + split; [intros _; right; right; now exists v
             | intros _; eexists; split; reflexivity].
    + split; [intros (e & E & _); discriminate|].
      intros [H|[H|(n & E & Hn)]]; try discriminate; congruence.
  - split; [intros _; now left | intros _; eexists; split; reflexivity].
Qed.

(** *** The list after a run of [add] calls *)







(** ** Runs of the engine *)

(** The events of the inner [lock] and of [_setControl]. *)
Definition ev_lock (count : nat) : event :=
  EUpdate {| sel_locked := Some false |}
          {| set_version := None; set_locked := Some true; set_lockedAt := true |}
          false count.

Definition ev_set (locked : bool) (v : Js.number) : event :=
  EUpdate {| sel_locked := None |}
          {| set_version := Some v; set_locked := Some locked; set_lockedAt := true |}
          true 1.

Definition ev_clear (count : nat) : event :=
  EUpdate {| sel_locked := None |}
          {| set_version := None; set_locked := Some false; set_lockedAt := false |}
          false count.

(** A collection holding an unlocked control document at version [v]. *)
Definition at_version (v : Js.number) (t : nat) : db :=
  {| stored := Some {| doc_version := v; doc_locked := false; doc_lockedAt := 0 |};
     now := t |}.

(** Steps 1, 2 and 3, added out of order; [up2] is the [up] of step 2. *)
Definition adds123 (up2 : Js.value) : list candidate :=
  [step 2%Z "two" up2 resolving;
   step 1%Z "one" resolving resolving;
   step 3%Z "three" resolving resolving].

Definition step1 : migration := stored_step (step 1%Z "one" resolving resolving).
Definition step2 (up2 : Js.value) : migration :=
  stored_step (step 2%Z "two" up2 resolving).
Definition step3 : migration := stored_step (step 3%Z "three" resolving resolving).

Definition list123 (up2 : Js.value) : list migration :=
  [DefaultMigration; step1; step2 up2; step3].

Lemma list123_registry (body : Js.outcome) :
  add_all initial_list (adds123 (Js.VFunction body))
  = Ok (list123 (Js.VFunction body)).
Proof. reflexivity. Qed.

(** C1: with steps 1, 2, 3 registered and version 0 stored,
    [migrateTo("latest")] takes the lock, runs [up] of 1, 2, 3 in that
    order, writes [{locked: true, version}] after each of them, and leaves
    version 3 stored and unlocked; from version 3, [migrateTo(1)] runs
    [down] of 3, then [down] of 2, with the same checkpoints, and leaves
    version 1. *)
Theorem sequential_traversal (t : nat) :
  let l := list123 resolving in
  exec (migrateTo l (CmdString "latest")) (at_version 0%Z t)
  = (Returned (Ok tt),
     {| stored := Some {| doc_version := 3%Z; doc_locked := false;
                          doc_lockedAt := 5 + t |};
        now := 6 + t |},
     [EFindOne; ev_lock 1;
      ECall up_ step1 [step1]; ev_set true 1%Z;
      ECall up_ (step2 resolving) [step2 resolving]; ev_set true 2%Z;
      ECall up_ step3 [step3]; ev_set true 3%Z;
      ev_set false 3%Z])
  /\
  exec (migrateTo l (CmdNumber 1%Z)) (at_version 3%Z t)
  = (Returned (Ok tt),
     {| stored := Some {| doc_version := 1%Z; doc_locked := false;
                          doc_lockedAt := 4 + t |};
        now := 5 + t |},
     [EFindOne; ev_lock 1;
      ECall down_ step3 [step3]; ev_set true 2%Z;
      ECall down_ (step2 resolving) [step2 resolving]; ev_set true 1%Z;
      ev_set false 1%Z]).
Proof. split; reflexivity. Qed.

(** C2: when [up] of step 2 throws on the way from 0 to 3, step 1 has been
    run and checkpointed, step 2 is called once, step 3 never; the last
    write is the unlock with version 1, and the caller gets the step's own
    error. *)
Theorem failed_step_leaves_last_success (payload : string) (t : nat) :
  let up2 := Js.VFunction (Js.Rejects payload) in
  exec (migrateTo (list123 up2) (CmdNumber 3%Z)) (at_version 0%Z t)
  = (Returned (Err (StepFailed payload)),
     {| stored := Some {| doc_version := 1%Z; doc_locked := false;
                          doc_lockedAt := 3 + t |};
        now := 4 + t |},
     [EFindOne; ev_lock 1;
      ECall up_ step1 [step1]; ev_set true 1%Z;
      ECall up_ (step2 up2) [step2 up2];
      ev_set false 1%Z]).
Proof. reflexivity. Qed.

(** C9: whatever control document is stored, the public [unlock] clears
    [locked] and leaves [version] (and [lockedAt]) as they were. *)
Theorem unlock_keeps_version (d : control_doc) (t : nat) :
  exec Migrations_unlock {| stored := Some d; now := t |}
  = (Returned 1%nat,
     {| stored := Some {| doc_version := doc_version d; doc_locked := false;
                          doc_lockedAt := doc_lockedAt d |};
        now := S t |},
     [ev_clear 1]).
Proof. reflexivity. Qed.

(** Running a sequence: the first part, then the rest from where it
    stopped. *)
Lemma exec_bind {A B : Type} (p : prog A) (f : A -> prog B) : forall c,
  exec (bind p f) c
  = match exec p c with
    | (Returned a, c1, t1) =>
        let '(y, c2, t2) := exec (f a) c1 in (y, c2, (t1 ++ t2)%list)
    | (Exited code, c1, t1) => (Exited code, c1, t1)
    end.
Proof.
  induction p as [a|k IH|s m u k IH|d callee args k IH|code]; intros c; simpl.
  - now destruct (exec (f a) c) as [[y c2] t2].
  - rewrite IH. destruct (exec (k (stored c)) _) as [[[a|code] c1] t1];
      [destruct (exec (f a) c1) as [[y c2] t2]|]; reflexivity.
  - destruct (updateAsync s m u c) as [n c0]. rewrite IH.
    destruct (exec (k n) c0) as [[[a|code] c1] t1];
      [destruct (exec (f a) c1) as [[y c2] t2]|]; reflexivity.
  - rewrite IH.
    destruct (exec (k (await_call (method d callee))) c) as [[[a|code] c1] t1];
      [destruct (exec (f a) c1) as [[y c2] t2]|]; reflexivity.
  - reflexivity.
Qed.

(** *** The fast path *)

(** C7: when the stored version [===] the target and [rerun] is false,
    [_migrateTo] only reads the control document: no step is called, no
    lock is attempted, nothing is written.  So [migrateTo("latest")] on a
    collection already at the latest version does nothing but that read. *)
Theorem fast_path_is_a_read (l : list migration) (v : Js.number)
                            (c : db) (d : control_doc) :
  stored c = Some d ->
  Js.strict_eq (doc_version d) v = true ->
  exec (_migrateTo l v false) c
  = (Returned (Ok tt), {| stored := Some d; now := S (now c) |}, [EFindOne])
  /\ (version_at l (List.length l - 1) = Ok v ->
      exec (migrateTo l (CmdString "latest")) c
      = (Returned (Ok tt), {| stored := Some d; now := S (now c) |}, [EFindOne])).
Proof.
  intros Hd Hv.
  assert (E : exec (_migrateTo l v false) c
              = (Returned (Ok tt), {| stored := Some d; now := S (now c) |},
                 [EFindOne])).
  { unfold _migrateTo, _getControl. simpl. unfold findOneAsync.
    rewrite Hd. simpl. rewrite Hv. reflexivity. }
  split; [exact E|].
  intros Hlast. unfold migrateTo.
  destruct l as [|m l']; [discriminate|].
  simpl orb. cbv iota.
  change (is_string (inr (hd "" (split "," "latest"))) "latest") with true.
  cbv iota beta.
  change (nth_error (split "," "latest") 1) with (@None string).
  rewrite Hlast. unfold and_then.
  rewrite exec_bind. simpl bind. rewrite E. reflexivity.
Qed.

Lemma fast_path_is_a_read_witness :
  exec (migrateTo (list123 resolving) (CmdString "latest")) (at_version 3%Z 7)
  = (Returned (Ok tt), at_version 3%Z 8, [EFindOne]).
Proof.
  refine (proj2 (fast_path_is_a_read (list123 resolving) 3%Z (at_version 3%Z 7)
                   _ eq_refl eq_refl) eq_refl).
Defined.

(** *** Rerun *)

Lemma find_from_spec l : forall i v idx,
  find_from i l v = Ok idx ->
  exists m, nth_error l (idx - i) = Some m
            /\ Js.strict_eq (version m) v = true /\ (i <= idx)%nat.
Proof.
  induction l as [|m ms IH]; intros i v idx H; simpl in H; [discriminate|].
  destruct (Js.strict_eq (version m) v) eqn:E.
  - inversion H; subst. exists m. rewrite Nat.sub_diag. auto.
  - destruct (IH _ _ _ H) as (m' & Hn & Hv & Hle).
    exists m'. replace (idx - i)%nat with (S (idx - S i)) by lia.
    simpl. repeat split; auto. lia.
Qed.

Lemma findIndexByVersion_spec l v idx :
  _findIndexByVersion l v = Ok idx ->
  exists m, nth_error l idx = Some m /\ Js.strict_eq (version m) v = true.
Proof.
  intros H. destruct (find_from_spec _ _ _ _ H) as (m & Hn & Hv & _).
  rewrite Nat.sub_0_r in Hn. now exists m.
Qed.

Lemma findIndexByVersion_Err l v e :
  _findIndexByVersion l v = Err e -> e = CantFindVersion v.
Proof.
  unfold _findIndexByVersion. generalize 0%nat.
  induction l as [|m ms IH]; intros i H; simpl in H; [congruence|].
  destruct (Js.strict_eq (version m) v); [discriminate|eauto].
Qed.

Lemma strict_eq_NaN (a : Js.number) : Js.strict_eq a Js.NaN = false.
Proof. now destruct a. Qed.

(** How awaiting a step body completes. *)
Definition completion (o : Js.outcome) : result unit :=
  match o with
  | Js.Resolves => Ok tt
  | Js.Rejects payload => Err (StepFailed payload)
  end.

(** The rerun branch of [_migrateTo] once the lock is taken. *)
Lemma rerun_run (l : list migration) (v : Js.number) (idx : nat)
                (m : migration) (c : db) (d : control_doc) :
  _findIndexByVersion l v = Ok idx ->
  nth_error l idx = Some m ->
  callable (up m) = true ->
  stored c = Some d ->
  doc_locked d = false ->
  exec (_migrateTo l v true) c
  = (Returned (completion (await_call (up m))),
     {| stored := Some {| doc_version := doc_version d; doc_locked := false;
                          doc_lockedAt := 2 + now c |};
        now := 3 + now c |},
     [EFindOne; ev_lock 1; ECall up_ m [m]; ev_set false (doc_version d)]).
Proof.
  intros Hf Hn Hup Hd Hl.
  unfold _migrateTo, _getControl, locked_run, lock, rerun_step, and_then.
  simpl. unfold findOneAsync, updateAsync. rewrite Hd. simpl.
  unfold updateAsync. simpl. unfold matches. simpl. rewrite Hl. simpl.
  rewrite Hf. simpl. unfold migrate. rewrite Hn.
  unfold callable in Hup. simpl method. rewrite Hup. simpl.
  destruct (await_call (up m)); reflexivity.
Qed.

(** A command [vs ++ ",rerun"], on an unlocked control document, reruns the
    step found at [parseInt(vs)]: it takes the lock, calls [up] of that step
    once and nothing else, and unlocks writing back the version that was
    read, whatever that version is. *)
Lemma rerun_command_runs_parsed_step (l : list migration) (cmd vs : string)
                           (idx : nat) (c : db) (d : control_doc) :
  registry l ->
  split "," cmd = [vs; "rerun"] ->
  _findIndexByVersion l (parseInt_string vs) = Ok idx ->
  stored c = Some d ->
  doc_locked d = false ->
  exists m,
    nth_error l idx = Some m
    /\ Js.strict_eq (version m) (parseInt_string vs) = true
    /\ exec (migrateTo l (CmdString cmd)) c
       = (Returned (completion (await_call (up m))),
          {| stored := Some {| doc_version := doc_version d; doc_locked := false;
                               doc_lockedAt := 2 + now c |};
             now := 3 + now c |},
          [EFindOne; ev_lock 1; ECall up_ m [m]; ev_set false (doc_version d)]).
Proof.
  intros Hreg Hsplit Hf Hd Hl.
  destruct (findIndexByVersion_spec _ _ _ Hf) as (m & Hn & Hv).
  exists m. repeat split; try assumption.
  assert (Hup : callable (up m) = true).
  { pose proof (registry_callable _ Hreg) as F.
    rewrite Forall_forall in F. apply F. eapply nth_error_In; eassumption. }
  assert (Hcmd : String.eqb cmd "" = false).
  { destruct cmd; [discriminate Hsplit|reflexivity]. }
  assert (Hl0 : Nat.eqb (List.length l) 0 = false).
  { destruct l; [discriminate Hf|reflexivity]. }
  assert (Hlatest : String.eqb vs "latest" = false).
  { destruct (String.eqb_spec vs "latest") as [->|]; [|reflexivity].
    change (parseInt_string "latest") with Js.NaN in Hv.
    now rewrite strict_eq_NaN in Hv. }
  unfold migrateTo. rewrite Hcmd, Hl0, Hsplit. simpl orb. cbv iota.
  simpl hd. simpl nth_error. unfold is_string. rewrite Hlatest.
  unfold is_subcommand.
  change (String.eqb "rerun" "rerun") with true.
  change (String.eqb "rerun" "exit") with false.
  unfold and_then, parseInt. rewrite exec_bind.
  rewrite (rerun_run l _ idx m c d Hf Hn Hup Hd Hl).
  destruct (await_call (up m)); reflexivity.
Qed.

Lemma rerun_command_runs_parsed_step_example :
  exists m,
    nth_error (list123 resolving) 2 = Some m
    /\ Js.strict_eq (version m) (parseInt_string "2") = true
    /\ exec (migrateTo (list123 resolving) (CmdString "2,rerun")) (at_version 2%Z 0)
       = (Returned (completion (await_call (up m))),
          {| stored := Some {| doc_version := 2%Z; doc_locked := false;
                               doc_lockedAt := 2 |};
             now := 3 |},
          [EFindOne; ev_lock 1; ECall up_ m [m]; ev_set false 2%Z]).
Proof.
  refine (rerun_command_runs_parsed_step (list123 resolving) "2,rerun" "2" 2
            (at_version 2%Z 0) _ _ eq_refl eq_refl eq_refl eq_refl).
  exists (adds123 resolving). reflexivity.
Defined.

(** ** What every run of a tree does *)

(** [all_nodes C R p]: every call node of [p] satisfies [C], every value
    [p] can return satisfies [R]. *)
Inductive all_nodes {A : Type}
    (C : direction -> migration -> list migration -> Prop) (R : A -> Prop)
  : prog A -> Prop :=
| an_Return a : R a -> all_nodes C R (Return a)
| an_FindOne k : (forall r, all_nodes C R (k r)) -> all_nodes C R (FindOne k)
| an_Update s m u k :
    (forall r, all_nodes C R (k r)) -> all_nodes C R (Update s m u k)
| an_Call d callee args k :
    C d callee args -> (forall r, all_nodes C R (k r)) ->
    all_nodes C R (Call d callee args k)
| an_Exit code : all_nodes C R (Exit code).

Lemma all_nodes_bind {A B : Type} C (R : A -> Prop) (R' : B -> Prop)
                     (p : prog A) (f : A -> prog B) :
  all_nodes C R p -> (forall a, R a -> all_nodes C R' (f a)) ->
  all_nodes C R' (bind p f).
Proof.
  intros Hp Hf. induction Hp; simpl; try (constructor; auto). auto.
Qed.

Definition call_ok (C : direction -> migration -> list migration -> Prop)
                   (e : event) : Prop :=
  match e with
  | ECall d callee args => C d callee args
  | _ => True
  end.

Lemma all_nodes_exec {A : Type} C (R : A -> Prop) (p : prog A) :
  all_nodes C R p ->
  forall c, Forall (call_ok C) (snd (exec p c))
            /\ forall a, fst (fst (exec p c)) = Returned a -> R a.
Proof.
  induction 1 as [a Ha|k _ IH|s m u k _ IH|d callee args k Hc _ IH|code];
    intros c; simpl.
  - split; [constructor|]. intros a' E. now inversion E; subst.
  - specialize (IH (stored c) {| stored := stored c; now := S (now c) |}).
    destruct (exec (k (stored c)) _) as [[x c2] t]. simpl in *.
    destruct IH as [IH1 IH2]. split; [constructor; simpl; auto|assumption].
  - destruct (updateAsync s m u c) as [n c1]. specialize (IH n c1).
    destruct (exec (k n) c1) as [[x c2] t]. simpl in *.
    destruct IH as [IH1 IH2]. split; [constructor; simpl; auto|assumption].
  - specialize (IH (await_call (method d callee)) c).
    destruct (exec (k _) c) as [[x c2] t]. simpl in *.
    destruct IH as [IH1 IH2]. split; [constructor; simpl; auto|assumption].
  - split; [repeat constructor|]. discriminate.
Qed.

Section Nodes.

Variable l : list migration.

(** What the engine passes to a step body: the list element itself, alone,
    and only after [typeof] found the method to be a function. *)
Definition engine_call (d : direction) (callee : migration)
                       (args : list migration) : Prop :=
  args = [callee] /\ In callee l /\ callable (method d callee) = true.

Definition not_InvalidCommand (r : result unit) : Prop :=
  r <> Err InvalidCommand.

Lemma nodes_getControl : all_nodes engine_call (fun _ => True) _getControl.
Proof. constructor. intros [d|]; repeat constructor. Qed.

Lemma nodes_migrate cv d idx : all_nodes engine_call not_InvalidCommand (migrate l cv d idx).
Proof.
  unfold migrate. destruct (nth_error l idx) as [m|] eqn:E.
  - destruct (Js.type_tag_eqb (Js.typeof (method d m)) Js.TFunction) eqn:T; simpl.
    + constructor.
      * repeat split; [eapply nth_error_In; eassumption|exact T].
      * intros [|payload]; constructor; discriminate.
    + repeat constructor. discriminate.
  - constructor. discriminate.
Qed.

Lemma nodes_loop_up n : forall i cv,
  all_nodes engine_call (fun r => not_InvalidCommand (snd r)) (loop_up l n i cv).
Proof.
  induction n as [|n IH]; intros i cv; simpl.
  - constructor. discriminate.
  - eapply all_nodes_bind; [apply nodes_migrate|].
    intros [[]|e] He; [|constructor; exact He].
    unfold version_at.
    destruct (nth_error l (i + 1)) as [m|]; [|constructor; discriminate].
    simpl. constructor. intros _. apply IH.
Qed.

Lemma nodes_loop_down n : forall i cv,
  all_nodes engine_call (fun r => not_InvalidCommand (snd r)) (loop_down l n i cv).
Proof.
  induction n as [|n IH]; intros i cv; simpl.
  - constructor. discriminate.
  - eapply all_nodes_bind; [apply nodes_migrate|].
    intros [[]|e] He; [|constructor; exact He].
    unfold version_at.
    destruct (nth_error l (i - 1)) as [m|]; [|constructor; discriminate].
    simpl. constructor. intros _. apply IH.
Qed.

Lemma nodes_migrateTo_inner v rerun :
  all_nodes engine_call not_InvalidCommand (_migrateTo l v rerun).
Proof.
  unfold _migrateTo.
  eapply all_nodes_bind; [apply nodes_getControl|]. intros ctl _.
  destruct (negb rerun && Js.strict_eq (ctl_version ctl) v);
    [constructor; discriminate|].
  unfold locked_run, lock. simpl. constructor. intros n.
  destruct (Bool.eqb (Nat.eqb n 1) false); [constructor; discriminate|].
  destruct rerun.
  - unfold rerun_step, and_then. simpl.
    destruct (_findIndexByVersion l v) as [idx|e] eqn:F.
    + eapply all_nodes_bind; [apply nodes_migrate|]. intros r Hr.
      simpl. constructor. intros _. now constructor.
    + apply findIndexByVersion_Err in F. subst e.
      repeat constructor. discriminate.
  - unfold and_then. simpl.
    destruct (_findIndexByVersion l (ctl_version ctl)) as [s|e] eqn:F1;
      [|apply findIndexByVersion_Err in F1; subst e; constructor; discriminate].
    destruct (_findIndexByVersion l v) as [e'|e] eqn:F2;
      [|apply findIndexByVersion_Err in F2; subst e; constructor; discriminate].
    unfold run_steps.
    eapply all_nodes_bind with (R := fun r => not_InvalidCommand (snd r)).
    + destruct (Js.lt (ctl_version ctl) v);
        [apply nodes_loop_up|apply nodes_loop_down].
    + intros r Hr. simpl. constructor. intros _. now constructor.
Qed.

End Nodes.

(** ** [migrateTo] *)

Lemma nodes_migrateTo (l : list migration) (cmd : command) :
  all_nodes (engine_call l)
    (fun r => r = Err InvalidCommand ->
              cmd = CmdUndefined \/ cmd = CmdString "" \/ l = [])
    (migrateTo l cmd).
Proof.
  unfold migrateTo.
  destruct (_ || _ || _) eqn:G.
  - constructor. intros _.
    destruct l as [|m l']; [now right; right|].
    destruct cmd as [|n|s]; simpl in G; [now left|discriminate|].
    rewrite orb_false_r in G. apply String.eqb_eq in G. subst. now right; left.
  - set (parsed := match cmd with
                   | CmdUndefined => _ | CmdNumber n => _ | CmdString s => _
                   end).
    destruct parsed as [version subcommand]. unfold and_then.
    eapply all_nodes_bind with (R := not_InvalidCommand).
    + destruct (is_string version "latest").
      * unfold version_at. simpl.
        destruct (nth_error l (List.length l - 1)) as [m|];
          [apply nodes_migrateTo_inner|constructor; discriminate].
      * apply nodes_migrateTo_inner.
    + intros [[]|e] He.
      * destruct (is_subcommand subcommand "exit"); constructor. discriminate.
      * constructor. intros E. now elim He.
Qed.

Definition fails_InvalidCommand (run : final (result unit) * db * list event)
  : Prop :=
  fst (fst run) = Returned (Err InvalidCommand).

(** The rejection rule that counts the sentinel-only list as invalid. *)
Definition rejects_sentinel_only (l : list migration) (cmd : command) (c : db)
  : Prop :=
  fails_InvalidCommand (exec (migrateTo l cmd) c)
  <-> (cmd = CmdUndefined \/ cmd = CmdString "" \/ l = [DefaultMigration]).

(** C4, as stated, fails: with only the sentinel in the list,
    [migrateTo("latest")] is not rejected; it targets version 0. *)
Lemma sentinel_only_is_not_rejected :
  ~ rejects_sentinel_only initial_list (CmdString "latest") (at_version 0%Z 0).
Proof.
  unfold rejects_sentinel_only. intros [_ H].
  assert (E : fails_InvalidCommand
                (exec (migrateTo initial_list (CmdString "latest"))
                      (at_version 0%Z 0)))
    by (apply H; right; right; reflexivity).
  vm_compute in E. discriminate.
Qed.

(** C4, amended: [migrateTo] fails with the invalid-command error exactly
    when the command is undefined or the empty string, or [_list] has
    length 0.  (The list always holds the sentinel, so its length is at
    least 1; see [registry_nonempty].) *)
Theorem migrateTo_invalid_iff (l : list migration) (cmd : command) (c : db) :
  fails_InvalidCommand (exec (migrateTo l cmd) c)
  <-> (cmd = CmdUndefined \/ cmd = CmdString "" \/ l = []).
Proof.
  unfold fails_InvalidCommand. split.
  - intros H.
    exact (proj2 (all_nodes_exec _ _ _ (nodes_migrateTo l cmd) c) _ H eq_refl).
  - intros [ -> | [ -> | -> ] ]; [reflexivity|reflexivity|].
    unfold migrateTo. simpl. rewrite orb_true_r. reflexivity.
Qed.

(** *** What a step body is called with *)

(** "Called with the frozen step object as single argument." *)
Definition passes_frozen_step (e : event) : Prop :=
  match e with
  | ECall _ callee args => args = [callee] /\ frozen callee = true
  | _ => True
  end.

(** C10, as stated, fails on the sentinel: ["0,rerun"] calls its [up] with
    [DefaultMigration], which was never frozen. *)
Lemma sentinel_is_passed_unfrozen :
  ~ Forall passes_frozen_step
      (snd (exec (migrateTo (list123 resolving) (CmdString "0,rerun"))
                 (at_version 0%Z 0))).
Proof.
  intros H. vm_compute in H.
  inversion H as [|? ? _ H1]; subst. inversion H1 as [|? ? _ H2]; subst.
  inversion H2 as [|? ? H3 _]; subst. destruct H3 as [_ H3]. discriminate.
Qed.

(** C10, amended: every call of a step body made by [migrateTo], on the
    sequential path and on the rerun path, passes exactly one argument, the
    list element whose method is called; that element is frozen when it was
    registered by [add], and is the unfrozen [DefaultMigration] otherwise. *)
Theorem step_is_called_with_itself (cs : list candidate) (l : list migration)
                                   (cmd : command) (c : db) :
  add_all initial_list cs = Ok l ->
  Forall (fun e => match e with
                   | ECall d callee args =>
                       args = [callee]
                       /\ In callee l
                       /\ callable (method d callee) = true
                       /\ (frozen callee = true \/ callee = DefaultMigration)
                   | _ => True
                   end)
         (snd (exec (migrateTo l cmd) c)).
Proof.
  intros H.
  pose proof (proj1 (all_nodes_exec _ _ _ (nodes_migrateTo l cmd) c)) as F.
  eapply Forall_impl; [|exact F].
  intros [| |d callee args|]; simpl; trivial.
  intros (Ha & Hin & Hc). repeat split; try assumption.
  pose proof (Permutation_in _ (add_all_perm _ _ _ H) Hin) as Hin'.
  simpl in Hin'. destruct Hin' as [<-|Hin']; [now right|left].
  apply in_map_iff in Hin'. now destruct Hin' as (c0 & <- & _).
Qed.

Lemma step_is_called_with_itself_witness :
  Forall (fun e => match e with
                   | ECall d callee args =>
                       args = [callee]
                       /\ In callee (list123 resolving)
                       /\ callable (method d callee) = true
                       /\ (frozen callee = true \/ callee = DefaultMigration)
                   | _ => True
                   end)
         (snd (exec (migrateTo (list123 resolving) (CmdString "latest"))
                    (at_version 0%Z 0))).
Proof.
  exact (step_is_called_with_itself (adds123 resolving) (list123 resolving)
           (CmdString "latest") (at_version 0%Z 0) eq_refl).
Defined.

(** ** Two callers and the lock *)

(** Running alone is performing the pending operations one after the
    other. *)
Lemma exec_next {A : Type} (p p' : prog A) (c c' : db) (e : event) :
  next p c = Some (p', c', e) ->
  exec p c = (let '(x, c2, t) := exec p' c' in (x, c2, e :: t)).
Proof.
  destruct p as [a|k|s m u k|d callee args k|code]; simpl; try discriminate.
  - intros H; inversion H; subst. reflexivity.
  - destruct (updateAsync s m u c) as [n c1].
    intros H; inversion H; subst. reflexivity.
  - intros H; inversion H; subst. reflexivity.
Qed.

(** Where a caller stands with respect to the lock. *)
Inductive phase : Type :=
| Idle       (* has not tried the lock *)
| Holding    (* its [lock()] answered true; it has not unlocked since *)
| Released   (* has written [locked: false] after holding *)
| Denied.    (* its [lock()] answered false *)

Definition is_acquire (s : selector) (m : modifier) : bool :=
  match sel_locked s, set_locked m with
  | Some false, Some true => true
  | _, _ => false
  end.

(** The lock discipline of one caller: which operation is allowed in which
    phase, and where it leads.  Idle callers only read and try the lock;
    only a holder calls step bodies and writes checkpoints; a denied caller
    does nothing more. *)
Definition mon (ph : phase) (e : event) : option phase :=
  match ph, e with
  | Idle, EFindOne => Some Idle
  | Idle, EUpdate s m _ n =>
      if is_acquire s m
      then Some (if Nat.eqb n 1 then Holding else Denied)
      else None
  | Holding, ECall _ _ _ => Some Holding
  | Holding, EUpdate s m _ _ =>
      match sel_locked s, set_locked m with
      | None, Some true => Some Holding
      | None, Some false => Some Released
      | _, _ => None
      end
  | Released, EUpdate s m _ _ =>
      match sel_locked s, set_locked m with
      | None, Some false => Some Released
      | _, _ => None
      end
  | _, _ => None
  end.

Definition both_holding (st : phase * phase) : bool :=
  match st with
  | (Holding, Holding) => true
  | _ => false
  end.

(** The discipline of two callers: each follows [mon], and they never hold
    the lock together.  [None] is a violation. *)
Fixpoint monitor (st : phase * phase) (t : list (bool * event))
  : option (phase * phase) :=
  match t with
  | [] => Some st
  | (who, e) :: t' =>
      match mon (if who then fst st else snd st) e with
      | None => None
      | Some ph' =>
          let st' := if who then (ph', snd st) else (fst st, ph') in
          if both_holding st' then None else monitor st' t'
      end
  end.

(** [follows Q ph p]: from phase [ph], every operation [p] can perform is
    allowed by [mon], whatever the collection answers (a read finds the
    control document); [Q] holds of the phase and the value at every
    return. *)
Inductive follows {A : Type} (Q : phase -> A -> Prop)
  : phase -> prog A -> Prop :=
| fo_Return ph a : Q ph a -> follows Q ph (Return a)
| fo_FindOne ph ph' k :
    mon ph EFindOne = Some ph' ->
    (forall d, follows Q ph' (k (Some d))) ->
    follows Q ph (FindOne k)
| fo_Update ph s m u k :
    (forall n, mon ph (EUpdate s m u n) <> None) ->
    (forall n ph', mon ph (EUpdate s m u n) = Some ph' -> follows Q ph' (k n)) ->
    follows Q ph (Update s m u k)
| fo_Call ph ph' d callee args k :
    mon ph (ECall d callee args) = Some ph' ->
    (forall r, follows Q ph' (k r)) ->
    follows Q ph (Call d callee args k)
| fo_Exit ph code : follows Q ph (Exit code).

Lemma follows_bind {A B : Type} (Q : phase -> A -> Prop) (Q' : phase -> B -> Prop)
                   (p : prog A) (f : A -> prog B) ph :
  follows Q ph p ->
  (forall ph' a, Q ph' a -> follows Q' ph' (f a)) ->
  follows Q' ph (bind p f).
Proof.
  intros Hp Hf. induction Hp; simpl; try (econstructor; eauto; fail). auto.
Qed.

Lemma follows_weaken {A : Type} (Q Q' : phase -> A -> Prop) (p : prog A) ph :
  follows Q ph p -> (forall ph' a, Q ph' a -> Q' ph' a) -> follows Q' ph p.
Proof.
  intros Hp HQ. induction Hp; try (econstructor; eauto; fail).
Qed.

Section Discipline.

Variable l : list migration.

(** After the inner [migrate]: still holding, or released on the way to
    throwing. *)
Definition after_migrate (ph : phase) (r : result unit) : Prop :=
  ph = Holding \/ (ph = Released /\ exists e, r = Err e).

Definition after_loop (ph : phase) (r : Js.number * result unit) : Prop :=
  ph = Holding \/ ph = Released.

(** What a caller owes at its return: a denied one returns without
    error. *)
Definition denied_is_quiet (ph : phase) (r : result unit) : Prop :=
  ph = Denied -> r = Ok tt.

Lemma follows_unlock ph cv :
  ph = Holding \/ ph = Released ->
  follows (fun ph' (_ : unit) => ph' = Released) ph (unlock cv).
Proof.
  intros [->| ->]; unfold unlock, _setControl; simpl;
    (apply fo_Update; [discriminate|]);
    intros n ph' H; inversion H; subst; now constructor.
Qed.

Lemma follows_migrate cv d idx :
  follows after_migrate Holding (migrate l cv d idx).
Proof.
  unfold migrate. destruct (nth_error l idx) as [m|].
  - destruct (negb _).
    + eapply follows_bind; [apply follows_unlock; now left|].
      intros ph' _ ->. constructor. right. split; [reflexivity|eauto].
    + eapply fo_Call; [reflexivity|].
      intros [|payload]; constructor; now left.
  - constructor. now left.
Qed.

Lemma follows_loop_up n : forall i cv,
  follows after_loop Holding (loop_up l n i cv).
Proof.
  induction n as [|n IH]; intros i cv; simpl.
  - constructor. now left.
  - eapply follows_bind; [apply follows_migrate|].
    intros ph' [[]|e] [->|[-> (e' & E)]]; try discriminate.
    + destruct (version_at l (i + 1)) as [v|e]; [|constructor; now left].
      apply fo_Update; [discriminate|].
      intros k ph' H. inversion H; subst. apply IH.
    + constructor. now left.
    + constructor. now right.
Qed.

Lemma follows_loop_down n : forall i cv,
  follows after_loop Holding (loop_down l n i cv).
Proof.
  induction n as [|n IH]; intros i cv; simpl.
  - constructor. now left.
  - eapply follows_bind; [apply follows_migrate|].
    intros ph' [[]|e] [->|[-> (e' & E)]]; try discriminate.
    + destruct (version_at l (i - 1)) as [v|e]; [|constructor; now left].
      apply fo_Update; [discriminate|].
      intros k ph' H. inversion H; subst. apply IH.
    + constructor. now left.
    + constructor. now right.
Qed.

Lemma follows_rerun_step cv v :
  follows denied_is_quiet Holding (rerun_step l cv v).
Proof.
  unfold rerun_step.
  eapply follows_bind with (Q := fun ph _ => ph = Holding \/ ph = Released).
  - unfold and_then. simpl.
    destruct (_findIndexByVersion l v) as [idx|e]; [|constructor; now left].
    eapply follows_weaken; [apply follows_migrate|].
    intros ph' r [->|[-> _]]; auto.
  - intros ph' r H.
    eapply follows_bind; [apply (follows_unlock _ _ H)|].
    intros ph'' _ ->. constructor. discriminate.
Qed.

Lemma follows_run_steps cv v s e :
  follows denied_is_quiet Holding (run_steps l cv v s e).
Proof.
  unfold run_steps.
  eapply follows_bind with (Q := after_loop).
  - destruct (Js.lt cv v); [apply follows_loop_up|apply follows_loop_down].
  - intros ph' r H.
    eapply follows_bind; [apply (follows_unlock _ _ H)|].
    intros ph'' _ ->. constructor. discriminate.
Qed.

Lemma follows_locked_run cv v rerun :
  follows denied_is_quiet Idle (locked_run l cv v rerun).
Proof.
  unfold locked_run, lock. simpl.
  apply fo_Update.
  - intros n. simpl. discriminate.
  - intros n ph'. simpl. destruct (Nat.eqb n 1); intros H; inversion H; subst.
    + simpl. destruct rerun; [apply follows_rerun_step|].
      unfold and_then. simpl.
      destruct (_findIndexByVersion l cv) as [s|e];
        [|constructor; discriminate].
      destruct (_findIndexByVersion l v) as [e'|e];
        [|constructor; discriminate].
      apply follows_run_steps.
    + simpl. constructor. intros _. reflexivity.
Qed.

Lemma follows_migrateTo_inner v rerun :
  follows denied_is_quiet Idle (_migrateTo l v rerun).
Proof.
  unfold _migrateTo, _getControl. simpl.
  eapply fo_FindOne; [reflexivity|]. intros d. simpl.
  destruct (negb rerun && _); [constructor; discriminate|].
  apply follows_locked_run.
Qed.

Lemma follows_migrateTo cmd :
  follows denied_is_quiet Idle (migrateTo l cmd).
Proof.
  unfold migrateTo.
  destruct (_ || _ || _); [constructor; discriminate|].
  set (parsed := match cmd with
                 | CmdUndefined => _ | CmdNumber n => _ | CmdString s => _
                 end).
  destruct parsed as [version subcommand]. unfold and_then.
  eapply follows_bind with (Q := denied_is_quiet).
  - destruct (is_string version "latest"); [|apply follows_migrateTo_inner].
    simpl. destruct (version_at l (List.length l - 1)) as [v|e];
      [apply follows_migrateTo_inner|constructor; discriminate].
  - intros ph' [[]|e] H.
    + destruct (is_subcommand subcommand "exit"); now constructor.
    + constructor. exact H.
Qed.

End Discipline.

(** What one allowed operation does to the stored control document. *)
Definition effect (ph ph' : phase) (d d' : control_doc) : Prop :=
  match ph, ph' with
  | Idle, Idle | Idle, Denied => d' = d
  | Idle, Holding => doc_locked d = false /\ doc_locked d' = true
  | Holding, Holding => doc_locked d = true -> doc_locked d' = true
  | Holding, Released | Released, Released => True
  | _, _ => False
  end.

Lemma next_follows {A : Type} (Q : phase -> A -> Prop) ph (p p' : prog A)
                   (c c' : db) (d : control_doc) (e : event) :
  follows Q ph p ->
  stored c = Some d ->
  next p c = Some (p', c', e) ->
  exists ph' d',
    mon ph e = Some ph' /\ follows Q ph' p'
    /\ stored c' = Some d' /\ effect ph ph' d d'.
Proof.
  intros Hf Hd Hn.
  destruct Hf as [ph a Ha|ph ph' k Hm Hk|ph s m u k Hm Hk
                 |ph ph' dir callee args k Hm Hk|ph code];
    simpl in Hn; try discriminate.
  - inversion Hn; subst. rewrite Hd. exists ph', d.
    repeat split; auto.
    destruct ph; simpl in Hm; inversion Hm; subst. reflexivity.
  - unfold updateAsync in Hn. rewrite Hd in Hn.
    destruct (matches s d) eqn:Ma; inversion Hn; subst; clear Hn;
      match goal with
      | |- context [EUpdate s m u ?n] =>
          destruct (mon ph (EUpdate s m u n)) as [ph'|] eqn:M;
            [|now elim (Hm n)]
      end;
      exists ph'; eexists; (split; [reflexivity|]);
      (split; [apply (Hk _ _ M)|]); (split; [reflexivity|]);
      unfold matches, effect, apply_set in *;
      destruct ph; simpl in M; unfold is_acquire in M;
      destruct (sel_locked s) as [[|]|]; try discriminate;
      destruct (set_locked m) as [[|]|]; try discriminate;
      inversion M; subst; simpl; auto;
      destruct (doc_locked d); simpl in *; auto; discriminate.
  - inversion Hn; subst. exists ph', d.
    destruct ph; simpl in Hm; inversion Hm; subst.
    repeat split; auto. simpl. trivial.
Qed.

(** The lock field agrees with the phases: while one caller holds and the
    other has not tried yet, the document says [locked: true]. *)
Definition agrees (st : phase * phase) (d : control_doc) : Prop :=
  both_holding st = false
  /\ (fst st = Holding -> snd st = Idle -> doc_locked d = true)
  /\ (snd st = Holding -> fst st = Idle -> doc_locked d = true).

Lemma agrees_step_first ph1 ph1' ph2 d d' :
  agrees (ph1, ph2) d -> effect ph1 ph1' d d' -> agrees (ph1', ph2) d'.
Proof.
  unfold agrees, effect. simpl. intros (Hb & H1 & H2) He.
  destruct ph1, ph1'; try contradiction; destruct ph2; simpl in *;
    repeat split; try discriminate; try tauto;
    try (subst; tauto); try (destruct He; tauto);
    try (destruct He as [He _]; intros; rewrite H2 in He; auto; discriminate).
Qed.

Lemma agrees_step_second ph1 ph2 ph2' d d' :
  agrees (ph1, ph2) d -> effect ph2 ph2' d d' -> agrees (ph1, ph2') d'.
Proof.
  unfold agrees, effect. simpl. intros (Hb & H1 & H2) He.
  destruct ph2, ph2'; try contradiction; destruct ph1; simpl in *;
    repeat split; try discriminate; try tauto;
    try (subst; tauto); try (destruct He; tauto);
    try (destruct He as [He _]; intros; rewrite H1 in He; auto; discriminate).
Qed.

(** Every interleaving of two disciplined callers is accepted by the
    monitor, and leaves them disciplined. *)
Lemma par_follows {A : Type} (Q : phase -> A -> Prop) (sched : list bool) :
  forall (p q : prog A) (c : db) (d : control_doc) (ph1 ph2 : phase),
  stored c = Some d ->
  follows Q ph1 p -> follows Q ph2 q ->
  agrees (ph1, ph2) d ->
  exists ph1' ph2' d',
    monitor (ph1, ph2) (snd (par sched p q c)) = Some (ph1', ph2')
    /\ follows Q ph1' (fst (fst (fst (par sched p q c))))
    /\ follows Q ph2' (snd (fst (fst (par sched p q c))))
    /\ stored (snd (fst (par sched p q c))) = Some d'
    /\ agrees (ph1', ph2') d'.
Proof.
  induction sched as [|[|] sched IH]; intros p q c d ph1 ph2 Hd Hp Hq Hag.
  - exists ph1, ph2, d. simpl. auto.
  - simpl. destruct (next p c) as [[[p' c'] e]|] eqn:N; [|now apply IH with d].
    destruct (next_follows Q ph1 p p' c c' d e Hp Hd N)
      as (ph' & d' & Hm & Hp' & Hd' & He).
    pose proof (agrees_step_first _ _ _ _ _ Hag He) as Hag'.
    destruct (IH p' q c' d' ph' ph2 Hd' Hp' Hq Hag')
      as (ph1' & ph2' & d'' & Hmon & H1 & H2 & H3 & H4).
    destruct (par sched p' q c') as [[[pf qf] cf] t]. simpl in *.
    exists ph1', ph2', d''. rewrite Hm.
    destruct Hag' as (Hb & _). simpl in Hb. rewrite Hb. auto.
  - simpl. destruct (next q c) as [[[q' c'] e]|] eqn:N; [|now apply IH with d].
    destruct (next_follows Q ph2 q q' c c' d e Hq Hd N)
      as (ph' & d' & Hm & Hq' & Hd' & He).
    pose proof (agrees_step_second _ _ _ _ _ Hag He) as Hag'.
    destruct (IH p q' c' d' ph1 ph' Hd' Hp Hq' Hag')
      as (ph1' & ph2' & d'' & Hmon & H1 & H2 & H3 & H4).
    destruct (par sched p q' c') as [[[pf qf] cf] t]. simpl in *.
    exists ph1', ph2', d''. rewrite Hm.
    destruct Hag' as (Hb & _). simpl in Hb. rewrite Hb. auto.
Qed.

(** The phase of one of the two callers. *)
Definition pick (who : bool) (st : phase * phase) : phase :=
  if who then fst st else snd st.

Definition past_the_lock (ph : phase) : Prop := ph = Holding \/ ph = Released.

Lemma mon_past_the_lock ph e ph' :
  mon ph e = Some ph' -> past_the_lock ph -> past_the_lock ph'.
Proof.
  unfold past_the_lock. intros H [->| ->]; destruct e; simpl in H;
    try discriminate;
    try (destruct (sel_locked s) as [[|]|]; try discriminate;
         destruct (set_locked m) as [[|]|]; try discriminate);
    inversion H; auto.
Qed.

Lemma monitor_past_the_lock who t : forall st st',
  monitor st t = Some st' ->
  past_the_lock (pick who st) -> past_the_lock (pick who st').
Proof.
  induction t as [|[w e] t IH]; intros st st' H Hp; simpl in H.
  - now inversion H; subst.
  - destruct (mon (if w then fst st else snd st) e) as [ph'|] eqn:M;
      [|discriminate].
    destruct (both_holding _); [discriminate|].
    apply (IH _ _ H).
    destruct st as [a b], w, who; simpl in *; auto;
      eapply mon_past_the_lock; eassumption.
Qed.

(** What a caller that ends up denied has done: reads, and lock attempts
    that updated no document. *)
Definition idle_event (e : event) : Prop :=
  match e with
  | EFindOne => True
  | EUpdate _ _ _ n => n <> 1%nat
  | _ => False
  end.

Lemma monitor_denied_quiet who t : forall st st',
  monitor st t = Some st' ->
  pick who st = Idle \/ pick who st = Denied ->
  pick who st' = Denied ->
  Forall idle_event (events_of who t).
Proof.
  induction t as [|[w e] t IH]; intros st st' H Hs Hd; simpl in H.
  - constructor.
  - destruct (mon (if w then fst st else snd st) e) as [ph'|] eqn:M;
      [|discriminate].
    destruct (both_holding _); [discriminate|].
    unfold events_of. simpl.
    destruct (Bool.eqb w who) eqn:W.
    + apply Bool.eqb_prop in W. subst w. simpl.
      assert (Hph : pick who (if who then (ph', snd st) else (fst st, ph')) = ph')
        by (destruct who; reflexivity).
      assert (Hcur : (if who then fst st else snd st) = pick who st)
        by reflexivity.
      rewrite Hcur in M.
      destruct Hs as [Hs|Hs]; rewrite Hs in M; [|discriminate].
      destruct e as [|s m u n| |]; simpl in M; try discriminate.
      * inversion M; subst ph'. constructor; [exact I|].
        apply (IH _ _ H); [left; now rewrite Hph|assumption].
      * destruct (is_acquire s m); [|discriminate].
        destruct (Nat.eqb n 1) eqn:N; inversion M; subst ph'.
        -- exfalso.
           assert (P : past_the_lock (pick who st')).
           { apply (monitor_past_the_lock who _ _ _ H).
             rewrite Hph. now left. }
           rewrite Hd in P. destruct P; discriminate.
        -- constructor; [simpl; now apply Nat.eqb_neq|].
           apply (IH _ _ H); [right; now rewrite Hph|assumption].
    + apply (IH _ _ H); [|assumption].
      destruct st as [a b], w, who; simpl in *; try discriminate; assumption.
Qed.

(** An update reports zero or one document. *)
Definition count_ok (x : bool * event) : Prop :=
  match snd x with
  | EUpdate _ _ _ n => (n <= 1)%nat
  | _ => True
  end.

Lemma next_count {A : Type} (p p' : prog A) c c' e :
  next p c = Some (p', c', e) -> forall w, count_ok (w, e).
Proof.
  destruct p as [a|k|s m u k|d callee args k|code]; simpl; try discriminate.
  - intros H w; inversion H; subst. exact I.
  - unfold updateAsync.
    destruct (stored c) as [d|]; [destruct (matches s d)|destruct u];
      intros H w; inversion H; subst; unfold count_ok; simpl; lia.
  - intros H w; inversion H; subst. exact I.
Qed.

Lemma par_counts {A : Type} (sched : list bool) : forall (p q : prog A) c,
  Forall count_ok (snd (par sched p q c)).
Proof.
  induction sched as [|[|] sched IH]; intros p q c; simpl.
  - constructor.
  - destruct (next p c) as [[[p' c'] e]|] eqn:N; [|apply IH].
    specialize (IH p' q c').
    destruct (par sched p' q c') as [[[pf qf] cf] t]. simpl in *.
    constructor; [exact (next_count _ _ _ _ _ N true)|assumption].
  - destruct (next q c) as [[[q' c'] e]|] eqn:N; [|apply IH].
    specialize (IH p q' c').
    destruct (par sched p q' c') as [[[pf qf] cf] t]. simpl in *.
    constructor; [exact (next_count _ _ _ _ _ N false)|assumption].
Qed.

(** An operation that calls no step and changes no document. *)
Definition no_effect (e : event) : Prop :=
  match e with
  | EFindOne => True
  | EUpdate _ _ _ n => n = 0%nat
  | _ => False
  end.

(** Returned without error (or left through [process.exit]). *)
Definition returned_quietly (p : prog (result unit)) : Prop :=
  p = Return (Ok tt) \/ exists code, p = Exit code.

Lemma denied_returns (p : prog (result unit)) :
  follows denied_is_quiet Denied p -> returned_quietly p.
Proof.
  intros H. inversion H as [ph a Ha|ph ph' k Hm _|ph s m u k Hm _
                           |ph ph' d callee args k Hm _|ph code]; subst.
  - left. now rewrite Ha.
  - discriminate.
  - now elim (Hm 0%nat).
  - discriminate.
  - right. now exists code.
Qed.

Lemma denied_no_effect {A : Type} who sched (p q : prog A) c st :
  monitor (Idle, Idle) (snd (par sched p q c)) = Some st ->
  pick who st = Denied ->
  Forall no_effect (events_of who (snd (par sched p q c))).
Proof.
  intros Hmon Hd.
  assert (Hi : Forall idle_event (events_of who (snd (par sched p q c)))).
  { apply (monitor_denied_quiet who _ _ _ Hmon); [|assumption].
    left. now destruct who. }
  assert (Hc : Forall (fun e => count_ok (who, e))
                      (events_of who (snd (par sched p q c)))).
  { pose proof (par_counts sched p q c) as F.
    unfold events_of. apply Forall_forall. intros e He.
    apply in_map_iff in He. destruct He as ([w e'] & <- & He).
    apply filter_In in He. destruct He as [He _].
    rewrite Forall_forall in F. exact (F _ He). }
  rewrite Forall_forall in *. intros e He.
  specialize (Hi e He). specialize (Hc e He).
  destruct e; simpl in *; auto. unfold count_ok in Hc. simpl in Hc. lia.
Qed.

Definition is_call (e : event) : bool :=
  match e with
  | ECall _ _ _ => true
  | _ => false
  end.

(** "Exactly one of the two callers executes any step function; the other
    sees the lock denied and returns without error, having called nothing
    and changed nothing." *)
Definition one_runs_other_denied
    (run : prog (result unit) * prog (result unit) * db * list (bool * event))
  : Prop :=
  exists loser : bool,
    existsb is_call (events_of (negb loser) (snd run)) = true
    /\ events_of loser (snd run) = [EFindOne; ev_lock 0]
    /\ (if loser then fst (fst (fst run)) else snd (fst (fst run)))
       = Return (Ok tt).

(** The second caller reads the version, the first one then runs from its
    read to its unlock, and the second one goes on. *)
Definition stale_read_schedule : list bool :=
  (false :: repeat true 9 ++ repeat false 8)%list.

Definition steps_called (who : bool) (t : list (bool * event))
  : list (direction * Js.number) :=
  flat_map (fun e => match e with
                     | ECall d callee _ => [(d, version callee)]
                     | _ => []
                     end)
           (events_of who t).

(** C3: the code does not keep the claim.  A caller that read the stored
    version before the other one finished finds the lock free afterwards,
    does not read the version again, and runs the same steps a second
    time: both callers execute step functions, none is denied. *)
Lemma both_callers_run_the_steps :
  let call := migrateTo (list123 resolving) (CmdString "latest") in
  let run := par stale_read_schedule call call (at_version 0%Z 0) in
  fst (fst (fst run)) = Return (Ok tt)
  /\ snd (fst (fst run)) = Return (Ok tt)
  /\ steps_called true (snd run)
     = [(up_, Js.of_Z 1); (up_, Js.of_Z 2); (up_, Js.of_Z 3)]
  /\ steps_called false (snd run)
     = [(up_, Js.of_Z 1); (up_, Js.of_Z 2); (up_, Js.of_Z 3)]
  /\ ~ one_runs_other_denied run.
Proof.
  repeat split; try reflexivity.
  intros [[|] (_ & H & _)]; vm_compute in H; discriminate.
Qed.

(** X24: for two [migrateTo] calls interleaved in any way against a
    collection that holds the control document, the two never are between a
    successful [lock()] and their first [{locked: false}] write together;
    step bodies are called and checkpoints written only by the caller in
    that phase; and a caller whose [lock()] is refused returns without
    error, having called no step and changed no document.  (The [locked]
    field itself is not protected: the monitor lets a caller that has
    released write [{locked: false}] again, as lines 264 and 326 do, and
    that write can clear a lock the other caller has taken since.) *)
Theorem lock_discipline (l : list migration) (cmd1 cmd2 : command)
                        (sched : list bool) (c : db) (d : control_doc) :
  stored c = Some d ->
  exists ph1 ph2,
    monitor (Idle, Idle)
            (snd (par sched (migrateTo l cmd1) (migrateTo l cmd2) c))
    = Some (ph1, ph2)
    /\ both_holding (ph1, ph2) = false
    /\ (ph1 = Denied ->
        returned_quietly
          (fst (fst (fst (par sched (migrateTo l cmd1) (migrateTo l cmd2) c))))
        /\ Forall no_effect
             (events_of true
                (snd (par sched (migrateTo l cmd1) (migrateTo l cmd2) c))))
    /\ (ph2 = Denied ->
        returned_quietly
          (snd (fst (fst (par sched (migrateTo l cmd1) (migrateTo l cmd2) c))))
        /\ Forall no_effect
             (events_of false
                (snd (par sched (migrateTo l cmd1) (migrateTo l cmd2) c)))).
Proof.
  intros Hd.
  assert (Hag : agrees (Idle, Idle) d) by (repeat split; discriminate).
  destruct (par_follows denied_is_quiet sched _ _ c d Idle Idle Hd
              (follows_migrateTo l cmd1) (follows_migrateTo l cmd2) Hag)
    as (ph1 & ph2 & d' & Hmon & H1 & H2 & _ & (Hb & _)).
  exists ph1, ph2. repeat split; try assumption.
  - subst ph1. now apply denied_returns.
  - now apply (denied_no_effect true _ _ _ _ _ Hmon).
  - subst ph2. now apply denied_returns.
  - now apply (denied_no_effect false _ _ _ _ _ Hmon).
Qed.

Lemma lock_discipline_witness :
  let call := migrateTo (list123 resolving) (CmdString "latest") in
  exists ph1 ph2,
    monitor (Idle, Idle)
            (snd (par [true; true; false; false; true] call call (at_version 0%Z 0)))
    = Some (ph1, ph2)
    /\ both_holding (ph1, ph2) = false
    /\ (ph1 = Denied ->
        returned_quietly
          (fst (fst (fst (par [true; true; false; false; true] call call
                              (at_version 0%Z 0)))))
        /\ Forall no_effect
             (events_of true
                (snd (par [true; true; false; false; true] call call
                          (at_version 0%Z 0)))))
    /\ (ph2 = Denied ->
        returned_quietly
          (snd (fst (fst (par [true; true; false; false; true] call call
                              (at_version 0%Z 0)))))
        /\ Forall no_effect
             (events_of false
                (snd (par [true; true; false; false; true] call call
                          (at_version 0%Z 0))))).
Proof.
  exact (lock_discipline (list123 resolving) (CmdString "latest")
           (CmdString "latest") [true; true; false; false; true]
           (at_version 0%Z 0) _ eq_refl).
Defined.

(** In that interleaving the second caller is the denied one. *)
Example denied_caller :
  let call := migrateTo (list123 resolving) (CmdString "latest") in
  let run := par [true; true; false; false; true] call call (at_version 0%Z 0) in
  monitor (Idle, Idle) (snd run) = Some (Holding, Denied)
  /\ events_of false (snd run) = [EFindOne; ev_lock 0]
  /\ snd (fst (fst run)) = Return (Ok tt).
Proof. repeat split. Qed.

(** The control document has to exist beforehand: on an empty collection
    the write by which [_getControl] creates it can land after the other
    caller has locked, and clears that lock. *)
Example creation_clears_the_lock :
  let call := migrateTo (list123 resolving) (CmdString "latest") in
  let run := par [true; false; true; true; true; false; false] call call
                 {| stored := None; now := 0 |} in
  monitor (Idle, Idle) (snd run) = None
  /\ events_of false (snd run) = [EFindOne; ev_set false 0%Z; ev_lock 1].
Proof. split; reflexivity. Qed.

(** What matters to the lock in a trace: who took it, who called which
    version, who wrote [locked: false] or a checkpoint. *)
Inductive mark : Type :=
| Locked
| Called (v : Js.number)
| Cleared
| Checkpointed.

Definition mark_of (e : event) : list mark :=
  match e with
  | ECall _ m _ => [Called (version m)]
  | EUpdate s m _ n =>
      if is_acquire s m then (if Nat.eqb n 1 then [Locked] else [])
      else match set_locked m with
           | Some false => [Cleared]
           | Some true => [Checkpointed]
           | None => []
           end
  | _ => []
  end.

Definition marks (t : list (bool * event)) : list (bool * mark) :=
  flat_map (fun x => map (pair (fst x)) (mark_of (snd x))) t.

(** On an empty collection both callers can hold the lock and run steps at
    the same time: the second caller's creating write clears the lock the
    first one holds, its [lock()] then succeeds, and it calls step 1 while
    the first caller is between its step 1 and its checkpoint. *)
Example creation_race_runs_steps_together :
  let call := migrateTo (list123 resolving) (CmdString "latest") in
  marks (snd (par [true; false; true; true; true; false; false; false; true; true]
                  call call {| stored := None; now := 0 |}))
  = [(true, Cleared); (true, Locked); (true, Called 1%Z);
     (false, Cleared); (false, Locked); (false, Called 1%Z);
     (true, Checkpointed); (true, Called 2%Z)].
Proof. reflexivity. Qed.

(* ================================================================== *)
(** * Further properties of the step list *)

(** ** [_findIndexByVersion] *)

Definition differs (v : Js.number) (m : migration) : Prop :=
  Js.strict_eq (version m) v = false.

Lemma find_from_first l : forall k v i,
  find_from k l v = Ok i <->
  (k <= i)%nat
  /\ (exists m, nth_error l (i - k) = Some m /\ Js.strict_eq (version m) v = true)
  /\ Forall (differs v) (firstn (i - k) l).
Proof.
  induction l as [|m ms IH]; intros k v i; simpl.
  - split; [discriminate|]. intros (_ & (m & H & _) & _).
    now destruct (i - k)%nat.
  - destruct (Js.strict_eq (version m) v) eqn:E.
    + split.
      * intros H; inversion H; subst. rewrite Nat.sub_diag. simpl.
        repeat split; [lia|now exists m|constructor].
      * intros (Hk & _ & F). destruct (i - k)%nat as [|n] eqn:D.
        -- f_equal. lia.
        -- simpl in F. inversion F as [|? ? Hd _]; subst.
           unfold differs in Hd. congruence.
    + rewrite IH. split.
      * intros (Hk & (m' & Hn & Hv) & F).
        replace (i - k)%nat with (S (i - S k)) by lia. simpl.
        repeat split; [lia|now exists m'|now constructor].
      * intros (Hk & (m' & Hn & Hv) & F).
        destruct (i - k)%nat as [|n] eqn:D.
        -- simpl in Hn. inversion Hn; subst. congruence.
        -- replace (i - S k)%nat with n by lia. simpl in Hn, F.
           inversion F; subst. repeat split; [lia|now exists m'|assumption].
Qed.

Lemma find_index_first (l : list migration) (v : Js.number) (i : nat) :
  _findIndexByVersion l v = Ok i <->
  (exists m, nth_error l i = Some m /\ Js.strict_eq (version m) v = true)
  /\ Forall (differs v) (firstn i l).
Proof.
  unfold _findIndexByVersion. rewrite find_from_first, Nat.sub_0_r.
  split; [tauto|]. intros [H1 H2]. split; [lia|split; assumption].
Qed.

(** X1: [_findIndexByVersion] answers [i] exactly when the element at [i]
    has a version [===] the one asked for and no earlier element has: it is
    the first match. *)
Theorem findIndexByVersion_first (l : list migration) (v : Js.number) (i : nat) :
  _findIndexByVersion l v = Ok i <->
  (exists m, nth_error l i = Some m /\ Js.strict_eq (version m) v = true)
  /\ Forall (differs v) (firstn i l).
Proof. exact (find_index_first l v i). Qed.

Lemma find_index_missing (l : list migration) (v : Js.number) (e : error) :
  _findIndexByVersion l v = Err e <->
  e = CantFindVersion v /\ Forall (differs v) l.
Proof.
  unfold _findIndexByVersion. generalize 0%nat.
  induction l as [|m ms IH]; intros k; simpl.
  - split; [intros H; inversion H; auto|intros [-> _]; reflexivity].
  - destruct (Js.strict_eq (version m) v) eqn:E.
    + split; [discriminate|]. intros [_ F]. inversion F as [|? ? Hd _]; subst.
      unfold differs in Hd. congruence.
    + rewrite IH. split; intros [H F]; (split; [assumption|]).
      * now constructor.
      * now inversion F.
Qed.

(** X2: [_findIndexByVersion] throws exactly when no element has a version
    [===] the one asked for, and the error names that version.  NaN is
    never found. *)
Theorem findIndexByVersion_missing (l : list migration) (v : Js.number) (e : error) :
  _findIndexByVersion l v = Err e <->
  e = CantFindVersion v /\ Forall (differs v) l.
Proof. exact (find_index_missing l v e). Qed.

Lemma findIndexByVersion_NaN (l : list migration) :
  _findIndexByVersion l Js.NaN = Err (CantFindVersion Js.NaN).
Proof.
  apply find_index_missing. split; [reflexivity|].
  apply Forall_forall. intros m _. apply strict_eq_NaN.
Qed.

(** ** Order of the list built by [add] *)

Lemma strict_eq_sym (a b : Js.number) : Js.strict_eq a b = Js.strict_eq b a.
Proof.
  destruct a as [x|], b as [y|]; unfold Js.strict_eq; try reflexivity.
  rewrite <- (Qcompare_antisym x y). now destruct (x ?= y)%Q.
Qed.

Lemma strict_eq_Qeq (x y : Q) :
  Js.strict_eq (Js.Num x) (Js.Num y) = true <-> (x == y)%Q.
Proof.
  unfold Js.strict_eq. rewrite Qeq_alt. destruct (x ?= y)%Q; split; congruence.
Qed.

Lemma le_Qle (x y : Q) : Js.le (Js.Num x) (Js.Num y) = true <-> (x <= y)%Q.
Proof.
  unfold Js.le. rewrite Qle_alt. destruct (x ?= y)%Q; split; congruence.
Qed.

Lemma lt_Qlt (x y : Q) : Js.lt (Js.Num x) (Js.Num y) = true <-> (x < y)%Q.
Proof.
  unfold Js.lt. rewrite Qlt_alt. destruct (x ?= y)%Q; split; congruence.
Qed.

(** Two numbers in the order of the list, each [===] to a bound, put the
    bounds in the same order. *)
Lemma le_between (x y a b : Js.number) :
  Js.strict_eq x a = true -> Js.strict_eq y b = true ->
  Js.le x y = true -> Js.le a b = true.
Proof.
  destruct x as [x|], y as [y|], a as [a|], b as [b|]; try discriminate.
  rewrite !strict_eq_Qeq, !le_Qle. intros -> ->. trivial.
Qed.

Lemma lt_not_ge (a b : Js.number) :
  Js.lt a b = true -> Js.le b a = true -> False.
Proof.
  destruct a as [a|], b as [b|]; try discriminate.
  rewrite lt_Qlt, le_Qle. intros H1 H2.
  exact (Qlt_irrefl _ (Qlt_le_trans _ _ _ H1 H2)).
Qed.

Lemma le_antisym (a b : Js.number) :
  Js.le a b = true -> Js.le b a = true -> Js.strict_eq a b = true.
Proof.
  destruct a as [a|], b as [b|]; try discriminate.
  rewrite !le_Qle, strict_eq_Qeq. apply Qle_antisym.
Qed.

Lemma le_not_eq_lt (a b : Js.number) :
  Js.le a b = true -> Js.strict_eq a b = false -> Js.lt a b = true.
Proof.
  destruct a as [a|], b as [b|]; try discriminate.
  unfold Js.le, Js.strict_eq, Js.lt. destruct (a ?= b)%Q; congruence.
Qed.

Lemma strict_eq_trans (a b c : Js.number) :
  Js.strict_eq a b = true -> Js.strict_eq b c = true -> Js.strict_eq a c = true.
Proof.
  destruct a as [a|], b as [b|], c as [c|]; try discriminate.
  rewrite !strict_eq_Qeq. intros -> ->. reflexivity.
Qed.

Lemma sorted_nth (l : list migration) : forall i j a b,
  StronglySorted ascending l -> (i < j)%nat ->
  nth_error l i = Some a -> nth_error l j = Some b -> ascending a b.
Proof.
  induction l as [|m ms IH]; intros i j a b Hs Hij Ha Hb;
    [now destruct i|].
  inversion Hs as [|? ? Hs' Hall]; subst.
  destruct j as [|j]; [lia|]. simpl in Hb.
  destruct i as [|i]; simpl in Ha.
  - inversion Ha; subst. rewrite Forall_forall in Hall.
    apply Hall. eapply nth_error_In; eassumption.
  - apply (IH i j a b); [assumption|lia|assumption|assumption].
Qed.

(** A run of [add] calls with ordinary version numbers. *)
Definition ordinary_registry (l : list migration) : Prop :=
  exists cs, Forall ordinary cs /\ add_all initial_list cs = Ok l.

Lemma ordinary_registry_sorted l :
  ordinary_registry l -> StronglySorted ascending l.
Proof.
  intros (cs & Hcs & H).
  refine (add_all_sorted cs _ _ Hcs _ _ H).
  - repeat constructor. discriminate.
  - repeat constructor.
Qed.

Lemma nth_error_firstn_In {A : Type} (l : list A) : forall i j (a : A),
  nth_error l i = Some a -> (i < j)%nat -> In a (firstn j l).
Proof.
  induction l as [|x xs IH]; intros i j a H Hij; [now destruct i|].
  destruct j as [|j]; [lia|]. destruct i as [|i]; simpl in *.
  - inversion H; subst. now left.
  - right. apply (IH i j a H). lia.
Qed.

Lemma strict_eq_le (x a : Js.number) :
  Js.strict_eq x a = true -> Js.le x x = true.
Proof.
  destruct x as [x|], a as [a|]; try discriminate. intros _.
  apply le_Qle. apply Qle_refl.
Qed.

Lemma index_order (l : list migration) (a b : Js.number) (s e : nat) :
  ordinary_registry l ->
  _findIndexByVersion l a = Ok s ->
  _findIndexByVersion l b = Ok e ->
  (Js.lt a b = true <-> (s < e)%nat).
Proof.
  intros Hreg Ha Hb.
  pose proof (ordinary_registry_sorted l Hreg) as Hs.
  apply find_index_first in Ha. destruct Ha as ((ma & Hna & Hva) & Fa).
  apply find_index_first in Hb. destruct Hb as ((mb & Hnb & Hvb) & Fb).
  split.
  - intros Hlt. destruct (Nat.lt_ge_cases s e) as [|Hes]; [assumption|].
    exfalso. apply (lt_not_ge _ _ Hlt).
    apply (le_between (version mb) (version ma)); try assumption.
    destruct (Nat.eq_dec e s) as [->|Hne].
    + rewrite Hna in Hnb. inversion Hnb; subst.
      exact (strict_eq_le _ _ Hva).
    + apply (sorted_nth l e s); try assumption. lia.
  - intros Hse. apply le_not_eq_lt.
    + apply (le_between (version ma) (version mb)); try assumption.
      now apply (sorted_nth l s e).
    + destruct (Js.strict_eq a b) eqn:E; [exfalso|reflexivity].
      pose proof (nth_error_firstn_In l s e ma Hna Hse) as Hin.
      rewrite Forall_forall in Fb. specialize (Fb ma Hin).
      unfold differs in Fb.
      rewrite (strict_eq_trans _ _ _ Hva E) in Fb. discriminate.
Qed.

(** X3: in a list built by [add] from ordinary version numbers, the index
    [_findIndexByVersion] gives grows with the version: [a < b] exactly
    when the index of [a] is before the index of [b].  So the direction
    test [currentVersion < version] of [_migrateTo] agrees with the order
    of the two indices. *)
Theorem index_follows_version (l : list migration) (a b : Js.number) (s e : nat) :
  ordinary_registry l ->
  _findIndexByVersion l a = Ok s ->
  _findIndexByVersion l b = Ok e ->
  (Js.lt a b = true <-> (s < e)%nat).
Proof. exact (index_order l a b s e). Qed.

Lemma index_follows_version_witness :
  Js.lt 1%Z 3%Z = true <-> (1 < 3)%nat.
Proof.
  refine (index_follows_version (list123 resolving) 1%Z 3%Z 1 3 _ eq_refl eq_refl).
  exists (adds123 resolving). split; [|reflexivity].
  repeat constructor; discriminate.
Defined.

(** X4: the list after a run of successful [add] calls holds the sentinel
    and the added steps, each once: nothing is dropped or duplicated, and
    its length is one more than the number of calls. *)
Theorem registry_contents (cs : list candidate) (l : list migration) :
  add_all initial_list cs = Ok l ->
  Permutation l (DefaultMigration :: map stored_step cs)
  /\ List.length l = S (List.length cs).
Proof.
  intros H. pose proof (add_all_perm cs _ _ H) as P. split; [exact P|].
  rewrite (Permutation_length P). simpl. now rewrite length_map.
Qed.

Lemma registry_contents_witness :
  Permutation (list123 resolving)
              (DefaultMigration :: map stored_step (adds123 resolving))
  /\ List.length (list123 resolving) = S (List.length (adds123 resolving)).
Proof.
  exact (registry_contents (adds123 resolving) (list123 resolving) eq_refl).
Defined.

(** ** The order of the [add] calls *)

Lemma add_all_accepts cs : forall l0 l,
  add_all l0 cs = Ok l ->
  Forall (fun c => exists v, c_version c = Js.VNumber v /\ Js.le v 0%Z = false) cs.
Proof.
  induction cs as [|c cs IH]; intros l0 l H; simpl in H; [constructor|].
  destruct (add l0 c) as [l1|] eqn:A; [|discriminate].
  apply add_Ok_inv in A. destruct A as (_ & Hv & _).
  constructor; [assumption|]. exact (IH _ _ H).
Qed.

(** Two sorted lists with the same elements are the same list, when
    elements of equal version are equal. *)
Lemma sorted_perm_unique (l1 : list migration) : forall l2,
  StronglySorted ascending l1 -> StronglySorted ascending l2 ->
  Permutation l1 l2 ->
  (forall m m', In m l1 -> In m' l1 ->
                Js.strict_eq (version m) (version m') = true -> m = m') ->
  l1 = l2.
Proof.
  induction l1 as [|a l1' IH]; intros l2 S1 S2 P Inj.
  - apply Permutation_nil in P. now subst.
  - destruct l2 as [|b l2'];
      [apply Permutation_sym, Permutation_nil in P; discriminate|].
    inversion S1 as [|? ? S1' A1]; subst. inversion S2 as [|? ? S2' A2]; subst.
    rewrite Forall_forall in A1, A2.
    assert (Hab : a = b).
    { assert (Ha : In a (b :: l2'))
        by (eapply Permutation_in; [exact P|now left]).
      assert (Hb : In b (a :: l1'))
        by (eapply Permutation_in; [exact (Permutation_sym P)|now left]).
      destruct Ha as [Ha|Ha]; [now subst|].
      destruct Hb as [Hb|Hb]; [now subst|].
      apply Inj; [now left|now right|].
      apply le_antisym; [exact (A1 _ Hb)|exact (A2 _ Ha)]. }
    subst b. f_equal. apply IH; try assumption.
    + exact (Permutation_cons_inv P).
    + intros m m' Hm Hm'. apply Inj; now right.
Qed.

(** X5: the order of the [add] calls does not matter: two runs that add the
    same candidates (ordinary version numbers, no two different candidates
    with the same version) build the same list. *)
Theorem add_order_irrelevant (cs1 cs2 : list candidate) (l1 l2 : list migration) :
  Permutation cs1 cs2 ->
  Forall ordinary cs1 ->
  (forall a b, In a cs1 -> In b cs1 ->
               Js.strict_eq (version (stored_step a)) (version (stored_step b)) = true ->
               a = b) ->
  add_all initial_list cs1 = Ok l1 ->
  add_all initial_list cs2 = Ok l2 ->
  l1 = l2.
Proof.
  intros P Ho Inj H1 H2.
  pose proof (add_all_perm _ _ _ H1) as P1.
  pose proof (add_all_perm _ _ _ H2) as P2. simpl in P1, P2.
  apply sorted_perm_unique.
  - apply ordinary_registry_sorted. now exists cs1.
  - apply ordinary_registry_sorted. exists cs2. split; [|assumption].
    exact (Permutation_Forall P Ho).
  - eapply perm_trans; [exact P1|].
    eapply perm_trans; [|exact (Permutation_sym P2)].
    constructor. now apply Permutation_map.
  - pose proof (add_all_accepts _ _ _ H1) as Acc. rewrite Forall_forall in Acc.
    assert (Above : forall c, In c cs1 ->
              Js.strict_eq (version DefaultMigration) (version (stored_step c)) = false).
    { intros c Hc. destruct (Acc c Hc) as (v & Hv & Hpos).
      assert (Ev : version (stored_step c) = v)
        by (unfold stored_step; simpl; now rewrite Hv).
      rewrite Ev. change (version DefaultMigration) with (Js.of_Z 0).
      destruct (Js.strict_eq (Js.of_Z 0) v) eqn:E; [|reflexivity].
      rewrite strict_eq_sym in E.
      destruct v as [q|]; [|discriminate].
      apply strict_eq_Qeq in E.
      assert (L : Js.le (Js.Num q) (Js.of_Z 0) = true)
        by (apply le_Qle; rewrite E; apply Qle_refl).
      change (Js.of_Z 0) with (Js.of_Z 0%Z) in L. congruence. }
    intros m m' Hm Hm' E.
    pose proof (Permutation_in _ P1 Hm) as Im.
    pose proof (Permutation_in _ P1 Hm') as Im'.
    destruct Im as [<-|Im], Im' as [<-|Im']; [reflexivity| | |].
    + apply in_map_iff in Im'. destruct Im' as (c & <- & Hc).
      rewrite (Above c Hc) in E. discriminate.
    + apply in_map_iff in Im. destruct Im as (c & <- & Hc).
      rewrite strict_eq_sym, (Above c Hc) in E. discriminate.
    + apply in_map_iff in Im. destruct Im as (c & <- & Hc).
      apply in_map_iff in Im'. destruct Im' as (c' & <- & Hc').
      f_equal. now apply Inj.
Qed.

Lemma add_order_irrelevant_witness :
  add_all initial_list (adds123 resolving) = Ok (list123 resolving)
  /\ add_all initial_list (rev (adds123 resolving)) = Ok (list123 resolving)
  /\ list123 resolving = list123 resolving.
Proof.
  split; [reflexivity|]. split; [reflexivity|].
  refine (add_order_irrelevant (adds123 resolving) (rev (adds123 resolving))
            (list123 resolving) (list123 resolving)
            (Permutation_rev _) _ _ eq_refl eq_refl).
  - repeat constructor; discriminate.
  - intros a b Ha Hb E. simpl in Ha, Hb.
    destruct Ha as [<-|[<-|[<-|[]]]], Hb as [<-|[<-|[<-|[]]]];
      try reflexivity; vm_compute in E; discriminate.
Defined.

(* ================================================================== *)
(** * Further properties of the control document *)

(** X6: [getVersion] answers the stored version without writing when the
    control document exists; on a collection without it, it first stores
    [{version: 0, locked: false}] and answers 0. *)
Theorem getVersion_reads_or_creates (c : db) :
  exec getVersion c
  = match stored c with
    | Some d =>
        (Returned (doc_version d),
         {| stored := Some d; now := S (now c) |},
         [EFindOne])
    | None =>
        (Returned (Js.of_Z 0),
         {| stored := Some {| doc_version := 0%Z; doc_locked := false;
                              doc_lockedAt := S (now c) |};
            now := S (S (now c)) |},
         [EFindOne; ev_set false 0%Z])
    end.
Proof.
  unfold getVersion, _getControl. simpl. unfold findOneAsync.
  destruct (stored c) as [d|] eqn:E; simpl; rewrite ?E; reflexivity.
Qed.

(** X7: [_setControl] returns its argument, and what it writes is what
    [_getControl] reads back, whatever was stored before (the write is an
    upsert of both fields). *)
Theorem setControl_getControl (ctl : control) (c : db) :
  fst (fst (exec (_setControl ctl) c)) = Returned ctl
  /\ exec (_ <- _setControl ctl ;; _getControl) c
     = (Returned ctl,
        {| stored := Some {| doc_version := ctl_version ctl;
                             doc_locked := ctl_locked ctl;
                             doc_lockedAt := now c |};
           now := S (S (now c)) |},
        [ev_set (ctl_locked ctl) (ctl_version ctl); EFindOne]).
Proof.
  destruct ctl as [v b]. unfold _setControl, _getControl. simpl.
  unfold updateAsync. destruct (stored c) as [d|]; split; reflexivity.
Qed.

(** X8: while the control document says [locked: true], a migration that is
    not cut short by the fast path does nothing and still returns without
    error: one read, one refused lock attempt, no step, no write. *)
Theorem locked_control_blocks (l : list migration) (v : Js.number) (rerun : bool)
                              (c : db) (d : control_doc) :
  stored c = Some d ->
  doc_locked d = true ->
  rerun = true \/ Js.strict_eq (doc_version d) v = false ->
  exec (_migrateTo l v rerun) c
  = (Returned (Ok tt), {| stored := Some d; now := S (S (now c)) |},
     [EFindOne; ev_lock 0]).
Proof.
  intros Hd Hl Hrun.
  assert (G : negb rerun && Js.strict_eq (doc_version d) v = false)
    by (destruct Hrun as [->| ->]; [reflexivity|apply andb_false_r]).
  unfold _migrateTo, _getControl. simpl. unfold findOneAsync. rewrite Hd.
  simpl. rewrite G. unfold locked_run, lock. simpl.
  unfold updateAsync. simpl. unfold matches. simpl. rewrite Hl. reflexivity.
Qed.

Lemma locked_control_blocks_witness :
  exec (_migrateTo (list123 resolving) 3%Z false)
       {| stored := Some {| doc_version := 1%Z; doc_locked := true;
                            doc_lockedAt := 4 |};
          now := 9 |}
  = (Returned (Ok tt),
     {| stored := Some {| doc_version := 1%Z; doc_locked := true;
                          doc_lockedAt := 4 |};
        now := 11 |},
     [EFindOne; ev_lock 0]).
Proof.
  refine (locked_control_blocks (list123 resolving) 3%Z false
            {| stored := Some {| doc_version := 1%Z; doc_locked := true;
                                 doc_lockedAt := 4 |};
               now := 9 |} _ eq_refl eq_refl _).
  right. reflexivity.
Defined.

(** X9: on the sequential path the two index lookups come after [lock()]
    and before the [try]: when the stored version or the target is not in
    the list, [_migrateTo] throws the lookup's error with the lock taken and
    never released; the document keeps its version and stays
    [locked: true]. *)
Theorem unknown_version_keeps_lock (l : list migration) (v : Js.number)
                                   (c : db) (d : control_doc) :
  stored c = Some d ->
  doc_locked d = false ->
  Js.strict_eq (doc_version d) v = false ->
  Forall (differs (doc_version d)) l \/ Forall (differs v) l ->
  exists w,
    (w = doc_version d \/ w = v)
    /\ exec (_migrateTo l v false) c
       = (Returned (Err (CantFindVersion w)),
          {| stored := Some {| doc_version := doc_version d; doc_locked := true;
                               doc_lockedAt := S (now c) |};
             now := S (S (now c)) |},
          [EFindOne; ev_lock 1]).
Proof.
  intros Hd Hl Hne Hmiss.
  assert (Run : forall r,
            (startIdx <-? Return (_findIndexByVersion l (doc_version d)) ;;
             endIdx <-? Return (_findIndexByVersion l v) ;;
             run_steps l (doc_version d) v startIdx endIdx) = Return (Err r) ->
            exec (_migrateTo l v false) c
            = (Returned (Err r),
               {| stored := Some {| doc_version := doc_version d; doc_locked := true;
                                    doc_lockedAt := S (now c) |};
                  now := S (S (now c)) |},
               [EFindOne; ev_lock 1])).
  { intros r Hr. unfold _migrateTo, _getControl. simpl. unfold findOneAsync.
    rewrite Hd. simpl. rewrite Hne. unfold locked_run, lock. simpl.
    unfold updateAsync. simpl. unfold matches. simpl. rewrite Hl. simpl.
    rewrite Hr. reflexivity. }
  destruct (_findIndexByVersion l (doc_version d)) as [s|e1] eqn:F1.
  - destruct Hmiss as [Hmiss|Hmiss].
    + assert (E : _findIndexByVersion l (doc_version d)
                  = Err (CantFindVersion (doc_version d)))
        by (apply find_index_missing; auto).
      congruence.
    + exists v. split; [now right|]. apply Run.
      unfold and_then. simpl.
      assert (E : _findIndexByVersion l v = Err (CantFindVersion v))
        by (apply find_index_missing; auto).
      now rewrite E.
  - exists (doc_version d). split; [now left|]. apply Run.
    unfold and_then. simpl.
    apply findIndexByVersion_Err in F1. now subst.
Qed.

Lemma unknown_version_keeps_lock_witness :
  exists w,
    (w = Js.of_Z 0 \/ w = Js.of_Z 7)
    /\ exec (_migrateTo (list123 resolving) 7%Z false) (at_version 0%Z 0)
       = (Returned (Err (CantFindVersion w)),
          {| stored := Some {| doc_version := 0%Z; doc_locked := true;
                               doc_lockedAt := 1 |};
             now := 2 |},
          [EFindOne; ev_lock 1]).
Proof.
  refine (unknown_version_keeps_lock (list123 resolving) 7%Z (at_version 0%Z 0)
            _ eq_refl eq_refl eq_refl _).
  right. repeat constructor.
Defined.

(** X10: on the rerun path the lookup is inside the [try]: rerunning a
    version that is not in the list throws the lookup's error after the
    unlock, calls no step and leaves the document unlocked at the version
    it had. *)
Theorem rerun_unknown_version_unlocks (l : list migration) (v : Js.number)
                                      (c : db) (d : control_doc) :
  stored c = Some d ->
  doc_locked d = false ->
  Forall (differs v) l ->
  exec (_migrateTo l v true) c
  = (Returned (Err (CantFindVersion v)),
     {| stored := Some {| doc_version := doc_version d; doc_locked := false;
                          doc_lockedAt := 2 + now c |};
        now := 3 + now c |},
     [EFindOne; ev_lock 1; ev_set false (doc_version d)]).
Proof.
  intros Hd Hl Hmiss.
  assert (E : _findIndexByVersion l v = Err (CantFindVersion v))
    by (apply find_index_missing; auto).
  unfold _migrateTo, _getControl, locked_run, lock, rerun_step, and_then.
  simpl. unfold findOneAsync, updateAsync. rewrite Hd. simpl.
  unfold updateAsync. simpl. unfold matches. simpl. rewrite Hl. simpl.
  rewrite E. reflexivity.
Qed.

Lemma rerun_unknown_version_unlocks_witness :
  exec (_migrateTo (list123 resolving) 7%Z true) (at_version 2%Z 0)
  = (Returned (Err (CantFindVersion 7%Z)),
     {| stored := Some {| doc_version := 2%Z; doc_locked := false;
                          doc_lockedAt := 2 |};
        now := 3 |},
     [EFindOne; ev_lock 1; ev_set false 2%Z]).
Proof.
  refine (rerun_unknown_version_unlocks (list123 resolving) 7%Z
            (at_version 2%Z 0) _ eq_refl eq_refl _).
  repeat constructor.
Defined.

(* ================================================================== *)
(** * Further properties of the traversal *)

(** ** The steps between two indices *)

(** [n] elements of [l] from index [a] on. *)
Definition slice (l : list migration) (a n : nat) : list migration :=
  firstn n (skipn a l).

Lemma slice_cons l : forall a n m,
  nth_error l a = Some m -> slice l a (S n) = m :: slice l (S a) n.
Proof.
  unfold slice. induction l as [|x xs IH]; intros a n m H; [now destruct a|].
  destruct a as [|a]; simpl in *.
  - now inversion H; subst.
  - now apply IH.
Qed.

Lemma slice_snoc l : forall a n m,
  nth_error l (a + n) = Some m -> slice l a (S n) = (slice l a n ++ [m])%list.
Proof.
  intros a n. revert a. induction n as [|n IH]; intros a m H.
  - rewrite Nat.add_0_r in H. now rewrite (slice_cons l a 0 m H).
  - assert (Hx : exists x, nth_error l a = Some x).
    { destruct (nth_error l a) as [x|] eqn:E; [now exists x|].
      apply nth_error_None in E.
      assert (nth_error l (a + S n) <> None) by congruence.
      apply nth_error_Some in H0. lia. }
    destruct Hx as (x & Hx).
    rewrite (slice_cons l a (S n) x Hx), (slice_cons l a n x Hx).
    simpl. f_equal. apply IH. now rewrite Nat.add_succ_comm.
Qed.

Lemma nth_error_lt {A : Type} (l : list A) (i j : nat) (a : A) :
  nth_error l j = Some a -> (i <= j)%nat -> exists b, nth_error l i = Some b.
Proof.
  intros H Hij. destruct (nth_error l i) as [b|] eqn:E; [now exists b|].
  apply nth_error_None in E.
  assert (nth_error l j <> None) by congruence.
  apply nth_error_Some in H0. lia.
Qed.

(** ** What the two loops do, step by step *)

(** The steps a run has to take, each with the version to checkpoint after
    it: going up from index [s] to [e], the steps [s+1 .. e] with their own
    versions; going down, the steps [s .. e+1] with the version of the step
    below. *)
Definition up_plan (l : list migration) (s e : nat)
  : list (migration * Js.number) :=
  map (fun m => (m, version m)) (slice l (S s) (e - s)).

Definition down_plan (l : list migration) (s e : nat)
  : list (migration * Js.number) :=
  combine (rev (slice l (S e) (s - e)))
          (map version (rev (slice l e (s - e)))).

(** Following a plan: call the step, checkpoint, go on; stop at the first
    step that lacks the method (after an unlock) or throws.  The result is
    the events, the last [currentVersion] and how the loop completed. *)
Fixpoint walk (d : direction) (plan : list (migration * Js.number))
              (cv : Js.number) : list event * Js.number * result unit :=
  match plan with
  | [] => ([], cv, Ok tt)
  | (m, v) :: rest =>
      if callable (method d m) then
        match await_call (method d m) with
        | Js.Resolves =>
            let '(t, cv', r) := walk d rest v in
            (ECall d m [m] :: ev_set true v :: t, cv', r)
        | Js.Rejects payload => ([ECall d m [m]], cv, Err (StepFailed payload))
        end
      else ([ev_set false cv], cv, Err (CannotMigrate d (version m)))
  end.

(** The collection after [_setControl]. *)
Definition written (c : db) (v : Js.number) (b : bool) : db :=
  {| stored := Some {| doc_version := v; doc_locked := b; doc_lockedAt := now c |};
     now := S (now c) |}.

Lemma exec_setControl (ctl : control) (c : db) :
  exec (_setControl ctl) c
  = (Returned ctl, written c (ctl_version ctl) (ctl_locked ctl),
     [ev_set (ctl_locked ctl) (ctl_version ctl)]).
Proof.
  unfold _setControl. simpl. unfold updateAsync.
  destruct (stored c) as [d|]; reflexivity.
Qed.

Lemma exec_unlock (cv : Js.number) (c : db) :
  exec (unlock cv) c = (Returned tt, written c cv false, [ev_set false cv]).
Proof. unfold unlock. rewrite exec_bind, exec_setControl. reflexivity. Qed.

Lemma exec_updateVersion (cv : Js.number) (c : db) :
  exec (updateVersion cv) c = (Returned tt, written c cv true, [ev_set true cv]).
Proof. unfold updateVersion. rewrite exec_bind, exec_setControl. reflexivity. Qed.

(** One call of the inner [migrate] on an existing index, as [walk]
    describes it. *)
Lemma exec_migrate (l : list migration) (cv : Js.number) (d : direction)
                   (idx : nat) (m : migration) (c : db) :
  nth_error l idx = Some m ->
  exec (migrate l cv d idx) c
  = if callable (method d m) then
      (Returned (completion (await_call (method d m))), c, [ECall d m [m]])
    else
      (Returned (Err (CannotMigrate d (version m))), written c cv false,
       [ev_set false cv]).
Proof.
  intros H. unfold migrate. rewrite H. unfold callable.
  destruct (Js.type_tag_eqb (Js.typeof (method d m)) Js.TFunction); simpl negb;
    cbv iota.
  - simpl. destruct (await_call (method d m)); reflexivity.
  - rewrite exec_bind, exec_unlock. reflexivity.
Qed.

Lemma loop_up_S l n i cv :
  loop_up l (S n) i cv
  = (r <- migrate l cv up_ (i + 1) ;;
     match r with
     | Err e => Return (cv, Err e)
     | Ok _ =>
         match version_at l (i + 1) with
         | Err e => Return (cv, Err e)
         | Ok v => _ <- updateVersion v ;; loop_up l n (i + 1) v
         end
     end).
Proof. reflexivity. Qed.

Lemma loop_down_S l n i cv :
  loop_down l (S n) i cv
  = (r <- migrate l cv down_ i ;;
     match r with
     | Err e => Return (cv, Err e)
     | Ok _ =>
         match version_at l (i - 1) with
         | Err e => Return (cv, Err e)
         | Ok v => _ <- updateVersion v ;; loop_down l n (i - 1) v
         end
     end).
Proof. reflexivity. Qed.

(** The loop of lines 309-313 takes the steps above [i] in list order. *)
Lemma loop_up_walk l : forall n i cv c,
  (i + n < List.length l)%nat ->
  exists c',
    exec (loop_up l n i cv) c
    = (Returned (snd (fst (walk up_ (map (fun m => (m, version m))
                                         (slice l (S i) n)) cv)),
                 snd (walk up_ (map (fun m => (m, version m))
                                    (slice l (S i) n)) cv)),
       c',
       fst (fst (walk up_ (map (fun m => (m, version m)) (slice l (S i) n)) cv))).
Proof.
  induction n as [|n IH]; intros i cv c Hlen.
  - exists c. reflexivity.
  - destruct (nth_error l (S i)) as [m|] eqn:Hm;
      [|apply nth_error_None in Hm; lia].
    rewrite loop_up_S, exec_bind, Nat.add_1_r, (exec_migrate l cv up_ _ m c Hm).
    rewrite (slice_cons l (S i) n m Hm). simpl map. simpl walk.
    unfold version_at. rewrite Hm. simpl method.
    destruct (callable (up m)).
    + destruct (await_call (up m)) as [|payload]; simpl completion;
        cbv beta iota.
      * rewrite exec_bind, exec_updateVersion.
        destruct (IH (S i) (version m) (written c (version m) true))
          as (c' & E); [lia|].
        rewrite E.
        destruct (walk up_ _ (version m)) as [[t cv'] r].
        exists c'. reflexivity.
      * exists c. reflexivity.
    + eexists. reflexivity.
Qed.

(** The loop of lines 315-319 takes the steps from [e + n] down to [e + 1];
    after each it checkpoints the version of the step below. *)
Lemma loop_down_walk l : forall n e cv c,
  (e + n < List.length l)%nat ->
  exists c',
    exec (loop_down l n (e + n) cv) c
    = (Returned (snd (fst (walk down_
                             (combine (rev (slice l (S e) n))
                                      (map version (rev (slice l e n)))) cv)),
                 snd (walk down_
                        (combine (rev (slice l (S e) n))
                                 (map version (rev (slice l e n)))) cv)),
       c',
       fst (fst (walk down_
                   (combine (rev (slice l (S e) n))
                            (map version (rev (slice l e n)))) cv))).
Proof.
  induction n as [|n IH]; intros e cv c Hlen.
  - exists c. reflexivity.
  - destruct (nth_error l (e + S n)) as [m|] eqn:Hm;
      [|apply nth_error_None in Hm; lia].
    destruct (nth_error l (e + n)) as [b|] eqn:Hb;
      [|apply nth_error_None in Hb; lia].
    rewrite loop_down_S, exec_bind, (exec_migrate l cv down_ _ m c Hm).
    rewrite (slice_snoc l (S e) n m) by (simpl; now rewrite Nat.add_succ_r in Hm).
    rewrite (slice_snoc l e n b Hb).
    rewrite !rev_app_distr. simpl rev. simpl app. simpl map. simpl combine.
    simpl walk.
    replace (e + S n - 1)%nat with (e + n)%nat by lia.
    unfold version_at. rewrite Hb. simpl method.
    destruct (callable (down m)).
    + destruct (await_call (down m)) as [|payload]; simpl completion;
        cbv beta iota.
      * rewrite exec_bind, exec_updateVersion.
        destruct (IH e (version b) (written c (version b) true))
          as (c' & E); [lia|].
        rewrite E.
        destruct (walk down_ _ (version b)) as [[t cv'] r].
        exists c'. reflexivity.
      * exists c. reflexivity.
    + eexists. reflexivity.
Qed.

(** The plan of a run from index [s] to index [e], by the direction test
    of line 308. *)
Definition plan_of (l : list migration) (cv v : Js.number) (s e : nat)
  : direction * list (migration * Js.number) :=
  if Js.lt cv v then (up_, up_plan l s e) else (down_, down_plan l s e).

Definition outcome_of (l : list migration) (cv v : Js.number) (s e : nat)
  : list event * Js.number * result unit :=
  walk (fst (plan_of l cv v s e)) (snd (plan_of l cv v s e)) cv.

Lemma run_steps_walk l cv v s e c :
  (s < List.length l)%nat -> (e < List.length l)%nat ->
  exists c1,
    exec (run_steps l cv v s e) c
    = (Returned (snd (outcome_of l cv v s e)),
       written c1 (snd (fst (outcome_of l cv v s e))) false,
       (fst (fst (outcome_of l cv v s e))
        ++ [ev_set false (snd (fst (outcome_of l cv v s e)))])%list).
Proof.
  intros Hs He. unfold run_steps, outcome_of, plan_of.
  rewrite exec_bind.
  destruct (Js.lt cv v); simpl fst; simpl snd.
  - destruct (loop_up_walk l (e - s) s cv c) as (c1 & E); [lia|].
    unfold up_plan. rewrite E.
    destruct (walk up_ _ cv) as [[t cv'] r]. cbn [fst snd]. cbv beta iota.
    cbn [fst snd]. rewrite exec_bind, exec_unlock. exists c1. reflexivity.
  - assert (E : exists c1,
              exec (loop_down l (s - e) s cv) c
              = (Returned (snd (fst (walk down_ (down_plan l s e) cv)),
                           snd (walk down_ (down_plan l s e) cv)),
                 c1, fst (fst (walk down_ (down_plan l s e) cv)))).
    { destruct (Nat.le_gt_cases e s) as [Hes|Hes].
      - destruct (loop_down_walk l (s - e) e cv c) as (c1 & E); [lia|].
        replace (e + (s - e))%nat with s in E by lia. now exists c1.
      - unfold down_plan. replace (s - e)%nat with 0%nat by lia.
        exists c. reflexivity. }
    destruct E as (c1 & E). rewrite E.
    destruct (walk down_ _ cv) as [[t cv'] r]. cbn [fst snd]. cbv beta iota.
    cbn [fst snd]. rewrite exec_bind, exec_unlock. exists c1. reflexivity.
Qed.

Lemma exec_getControl_found (c : db) (d : control_doc) :
  stored c = Some d ->
  exec _getControl c
  = (Returned {| ctl_version := doc_version d; ctl_locked := doc_locked d |},
     {| stored := Some d; now := S (now c) |}, [EFindOne]).
Proof.
  intros H. unfold _getControl. simpl. unfold findOneAsync. now rewrite H.
Qed.

Lemma exec_lock_free (c : db) (d : control_doc) :
  stored c = Some d -> doc_locked d = false ->
  exec lock c
  = (Returned true,
     {| stored := Some {| doc_version := doc_version d; doc_locked := true;
                          doc_lockedAt := now c |};
        now := S (now c) |},
     [ev_lock 1]).
Proof.
  intros H L. unfold lock. simpl. unfold updateAsync. rewrite H.
  unfold matches. simpl. now rewrite L.
Qed.

Lemma run_is_walk (l : list migration) (v : Js.number) (c : db)
                       (d : control_doc) (s e : nat) :
  stored c = Some d ->
  doc_locked d = false ->
  Js.strict_eq (doc_version d) v = false ->
  _findIndexByVersion l (doc_version d) = Ok s ->
  _findIndexByVersion l v = Ok e ->
  exists t',
    exec (_migrateTo l v false) c
    = (Returned (snd (outcome_of l (doc_version d) v s e)),
       {| stored := Some {| doc_version := snd (fst (outcome_of l (doc_version d) v s e));
                            doc_locked := false; doc_lockedAt := t' |};
          now := S t' |},
       EFindOne :: ev_lock 1
       :: (fst (fst (outcome_of l (doc_version d) v s e))
           ++ [ev_set false (snd (fst (outcome_of l (doc_version d) v s e)))])%list).
Proof.
  intros Hd Hl Hne Hs He.
  assert (Ls : (s < List.length l)%nat).
  { apply find_index_first in Hs. destruct Hs as ((m & Hm & _) & _).
    apply nth_error_Some. congruence. }
  assert (Le : (e < List.length l)%nat).
  { apply find_index_first in He. destruct He as ((m & Hm & _) & _).
    apply nth_error_Some. congruence. }
  destruct (run_steps_walk l (doc_version d) v s e
              {| stored := Some {| doc_version := doc_version d; doc_locked := true;
                                   doc_lockedAt := S (now c) |};
                 now := S (S (now c)) |} Ls Le) as (c1 & E).
  exists (now c1).
  unfold _migrateTo. rewrite exec_bind, (exec_getControl_found c d Hd).
  cbn [ctl_version negb andb]. rewrite Hne. cbv beta iota.
  unfold locked_run. rewrite exec_bind.
  rewrite (exec_lock_free {| stored := Some d; now := S (now c) |} d eq_refl Hl).
  cbn [Bool.eqb now].
  cbv beta iota. unfold and_then. rewrite Hs, He. cbn [bind].
  rewrite E. reflexivity.
Qed.

(** X11: when the stored version and the target are both in the list (and
    differ), whatever the step bodies do, a sequential run is: the read,
    the lock, the steps of the plan in loop order, each call followed by its
    checkpoint, up to the first step that lacks the method or throws; then
    the unlock, which writes the last checkpointed version with
    [locked: false].  The caller gets that step's error, if any. *)
Theorem sequential_run (l : list migration) (v : Js.number) (c : db)
                       (d : control_doc) (s e : nat) :
  stored c = Some d ->
  doc_locked d = false ->
  Js.strict_eq (doc_version d) v = false ->
  _findIndexByVersion l (doc_version d) = Ok s ->
  _findIndexByVersion l v = Ok e ->
  exists t',
    exec (_migrateTo l v false) c
    = (Returned (snd (outcome_of l (doc_version d) v s e)),
       {| stored := Some {| doc_version := snd (fst (outcome_of l (doc_version d) v s e));
                            doc_locked := false; doc_lockedAt := t' |};
          now := S t' |},
       EFindOne :: ev_lock 1
       :: (fst (fst (outcome_of l (doc_version d) v s e))
           ++ [ev_set false (snd (fst (outcome_of l (doc_version d) v s e)))])%list).
Proof. exact (run_is_walk l v c d s e). Qed.

Lemma sequential_run_witness :
  exists t',
    exec (_migrateTo (list123 resolving) 1%Z false) (at_version 3%Z 0)
    = (Returned (snd (outcome_of (list123 resolving) 3%Z 1%Z 3 1)),
       {| stored := Some {| doc_version :=
                              snd (fst (outcome_of (list123 resolving) 3%Z 1%Z 3 1));
                            doc_locked := false; doc_lockedAt := t' |};
          now := S t' |},
       EFindOne :: ev_lock 1
       :: (fst (fst (outcome_of (list123 resolving) 3%Z 1%Z 3 1))
           ++ [ev_set false (snd (fst (outcome_of (list123 resolving) 3%Z 1%Z 3 1)))])%list).
Proof.
  exact (sequential_run (list123 resolving) 1%Z (at_version 3%Z 0) _ 3 1
           eq_refl eq_refl eq_refl eq_refl eq_refl).
Defined.

(** ** Reading a plan *)

Definition plan_events (d : direction) (p : migration * Js.number) : list event :=
  [ECall d (fst p) [fst p]; ev_set true (snd p)].

Definition resolves (d : direction) (p : migration * Js.number) : Prop :=
  method d (fst p) = Js.VFunction Js.Resolves.

Lemma last_cons {A : Type} (l : list A) : forall x d, last (x :: l) d = last l x.
Proof.
  induction l as [|y l' IH]; intros x d; [reflexivity|].
  change (last (x :: y :: l') d) with (last (y :: l') d).
  now rewrite !IH.
Qed.

Lemma walk_app d pre : forall rest cv,
  Forall (resolves d) pre ->
  walk d (pre ++ rest) cv
  = (let '(t, cv', r) := walk d rest (last (map snd pre) cv) in
     ((flat_map (plan_events d) pre ++ t)%list, cv', r)).
Proof.
  induction pre as [|[m v] pre IH]; intros rest cv F.
  - simpl. now destruct (walk d rest cv) as [[t cv'] r].
  - inversion F as [|? ? Hm F']; subst. unfold resolves in Hm. simpl in Hm.
    change (map snd ((m, v) :: pre)) with (v :: map snd pre).
    rewrite (last_cons (map snd pre) v cv).
    simpl app. simpl walk. unfold callable. rewrite Hm. simpl.
    rewrite (IH rest v F').
    now destruct (walk d rest (last (map snd pre) v)) as [[t cv'] r].
Qed.

Lemma walk_Ok d plan : forall cv t cv',
  walk d plan cv = (t, cv', Ok tt) -> cv' = last (map snd plan) cv.
Proof.
  induction plan as [|[m v] plan IH]; intros cv t cv' H; simpl in H.
  - now inversion H.
  - destruct (callable (method d m)); [|discriminate].
    destruct (await_call (method d m)); [|discriminate].
    destruct (walk d plan v) as [[t0 cv0] r0] eqn:W.
    inversion H; subst.
    change (map snd ((m, v) :: plan)) with (v :: map snd plan).
    rewrite (last_cons (map snd plan) v cv). exact (IH _ _ _ W).
Qed.

Lemma lt_strict_eq_false (a b : Js.number) :
  Js.lt a b = true -> Js.strict_eq a b = false.
Proof.
  destruct a as [x|], b as [y|]; unfold Js.lt, Js.strict_eq; try discriminate.
  destruct (x ?= y)%Q; congruence.
Qed.

Lemma slice_length l : forall a n,
  (a + n <= List.length l)%nat -> List.length (slice l a n) = n.
Proof.
  intros a n H. unfold slice. rewrite length_firstn, length_skipn. lia.
Qed.

Lemma map_snd_combine {A B : Type} (xs : list A) : forall (ys : list B),
  List.length xs = List.length ys -> map snd (combine xs ys) = ys.
Proof.
  induction xs as [|x xs IH]; intros [|y ys] H; simpl in *; try discriminate;
    [reflexivity|]. f_equal. apply IH. lia.
Qed.

(** The last version a complete run checkpoints is the version of the
    element at the target index. *)
Lemma up_plan_last l s e me cv :
  (s < e)%nat -> nth_error l e = Some me ->
  last (map snd (up_plan l s e)) cv = version me.
Proof.
  intros Hse Hme. unfold up_plan.
  replace (e - s)%nat with (S (e - S s)) by lia.
  rewrite (slice_snoc l (S s) (e - S s) me)
    by (replace (S s + (e - S s))%nat with e by lia; exact Hme).
  rewrite !map_app. simpl. apply last_last.
Qed.

Lemma down_plan_last l s e me cv :
  (e < s)%nat -> (s < List.length l)%nat -> nth_error l e = Some me ->
  last (map snd (down_plan l s e)) cv = version me.
Proof.
  intros Hes Hs Hme. unfold down_plan.
  rewrite map_snd_combine
    by (rewrite length_map, !length_rev, !slice_length; lia).
  replace (s - e)%nat with (S (s - S e)) by lia.
  rewrite (slice_cons l e (s - S e) me Hme). simpl rev.
  rewrite map_app. simpl. apply last_last.
Qed.

Lemma found_in_range l v i :
  _findIndexByVersion l v = Ok i ->
  exists m, nth_error l i = Some m /\ Js.strict_eq (version m) v = true.
Proof. intros H. now apply find_index_first in H. Qed.

(** X12: going up with every step on the way resolving: the [up] of the
    elements from index [s+1] to index [e] is called in list order, each
    followed by the checkpoint of its own version, and the run ends
    unlocked at the version of the element at [e]. *)
Theorem migrate_up_in_order (l : list migration) (v : Js.number) (c : db)
                            (d : control_doc) (s e : nat) :
  stored c = Some d ->
  doc_locked d = false ->
  Js.lt (doc_version d) v = true ->
  _findIndexByVersion l (doc_version d) = Ok s ->
  _findIndexByVersion l v = Ok e ->
  (s < e)%nat ->
  Forall (fun m => up m = Js.VFunction Js.Resolves) (slice l (S s) (e - s)) ->
  exists me t',
    nth_error l e = Some me
    /\ exec (_migrateTo l v false) c
       = (Returned (Ok tt),
          {| stored := Some {| doc_version := version me; doc_locked := false;
                               doc_lockedAt := t' |};
             now := S t' |},
          EFindOne :: ev_lock 1
          :: (flat_map (fun m => [ECall up_ m [m]; ev_set true (version m)])
                       (slice l (S s) (e - s))
              ++ [ev_set false (version me)])%list).
Proof.
  intros Hd Hl Hlt Hs He Hse Hres.
  destruct (found_in_range _ _ _ He) as (me & Hme & _).
  destruct (run_is_walk l v c d s e Hd Hl (lt_strict_eq_false _ _ Hlt) Hs He)
    as (t' & E).
  exists me, t'. split; [assumption|]. rewrite E. clear E.
  unfold outcome_of, plan_of. rewrite Hlt. cbn [fst snd].
  assert (F : Forall (resolves up_) (up_plan l s e)).
  { unfold up_plan. apply Forall_forall. intros p Hp.
    apply in_map_iff in Hp. destruct Hp as (m & <- & Hm).
    rewrite Forall_forall in Hres. exact (Hres m Hm). }
  pose proof (walk_app up_ (up_plan l s e) [] (doc_version d) F) as W.
  rewrite app_nil_r in W. rewrite W. simpl walk. cbn [fst snd].
  rewrite (up_plan_last l s e me _ Hse Hme), app_nil_r.
  unfold up_plan. rewrite flat_map_concat_map, map_map, <- flat_map_concat_map.
  reflexivity.
Qed.

Lemma migrate_up_in_order_witness :
  exists me t',
    nth_error (list123 resolving) 3 = Some me
    /\ exec (_migrateTo (list123 resolving) 3%Z false) (at_version 1%Z 0)
       = (Returned (Ok tt),
          {| stored := Some {| doc_version := version me; doc_locked := false;
                               doc_lockedAt := t' |};
             now := S t' |},
          EFindOne :: ev_lock 1
          :: (flat_map (fun m => [ECall up_ m [m]; ev_set true (version m)])
                       (slice (list123 resolving) 2 (3 - 1))
              ++ [ev_set false (version me)])%list).
Proof.
  refine (migrate_up_in_order (list123 resolving) 3%Z (at_version 1%Z 0) _ 1 3
            eq_refl eq_refl eq_refl eq_refl eq_refl _ _).
  - lia.
  - repeat constructor.
Defined.

(** X13: going down with every step on the way resolving: the [down] of the
    elements from index [s] down to index [e+1] is called in that order,
    each followed by the checkpoint of the version of the element below it,
    and the run ends unlocked at the version of the element at [e]. *)
Theorem migrate_down_in_order (l : list migration) (v : Js.number) (c : db)
                              (d : control_doc) (s e : nat) :
  stored c = Some d ->
  doc_locked d = false ->
  Js.lt (doc_version d) v = false ->
  Js.strict_eq (doc_version d) v = false ->
  _findIndexByVersion l (doc_version d) = Ok s ->
  _findIndexByVersion l v = Ok e ->
  (e < s)%nat ->
  Forall (fun m => down m = Js.VFunction Js.Resolves) (slice l (S e) (s - e)) ->
  exists me t',
    nth_error l e = Some me
    /\ exec (_migrateTo l v false) c
       = (Returned (Ok tt),
          {| stored := Some {| doc_version := version me; doc_locked := false;
                               doc_lockedAt := t' |};
             now := S t' |},
          EFindOne :: ev_lock 1
          :: (flat_map (plan_events down_) (down_plan l s e)
              ++ [ev_set false (version me)])%list).
Proof.
  intros Hd Hl Hlt Hne Hs He Hes Hres.
  destruct (found_in_range _ _ _ He) as (me & Hme & _).
  destruct (found_in_range _ _ _ Hs) as (ms & Hms & _).
  assert (Ls : (s < List.length l)%nat) by (apply nth_error_Some; congruence).
  destruct (run_is_walk l v c d s e Hd Hl Hne Hs He) as (t' & E).
  exists me, t'. split; [assumption|]. rewrite E. clear E.
  unfold outcome_of, plan_of. rewrite Hlt. cbn [fst snd].
  assert (F : Forall (resolves down_) (down_plan l s e)).
  { unfold down_plan. apply Forall_forall. intros [m w] Hp.
    apply in_combine_l in Hp. apply in_rev in Hp.
    rewrite Forall_forall in Hres. exact (Hres m Hp). }
  pose proof (walk_app down_ (down_plan l s e) [] (doc_version d) F) as W.
  rewrite app_nil_r in W. rewrite W. simpl walk. cbn [fst snd].
  rewrite (down_plan_last l s e me _ Hes Ls Hme), app_nil_r.
  reflexivity.
Qed.

Lemma migrate_down_in_order_witness :
  exists me t',
    nth_error (list123 resolving) 0 = Some me
    /\ exec (_migrateTo (list123 resolving) 0%Z false) (at_version 2%Z 0)
       = (Returned (Ok tt),
          {| stored := Some {| doc_version := version me; doc_locked := false;
                               doc_lockedAt := t' |};
             now := S t' |},
          EFindOne :: ev_lock 1
          :: (flat_map (plan_events down_) (down_plan (list123 resolving) 2 0)
              ++ [ev_set false (version me)])%list).
Proof.
  refine (migrate_down_in_order (list123 resolving) 0%Z (at_version 2%Z 0) _ 2 0
            eq_refl eq_refl eq_refl eq_refl eq_refl eq_refl _ _).
  - lia.
  - repeat constructor.
Defined.

(** X14: a run stops at the first step whose body throws: the steps before
    it have been called and checkpointed, it is called once, nothing after
    it is called; the unlock writes the last checkpointed version (the
    stored one, if no step was completed) and the caller gets the step's
    error. *)
Theorem run_stops_at_rejection (l : list migration) (v : Js.number) (c : db)
    (d : control_doc) (s e : nat) (dir : direction)
    (pre post : list (migration * Js.number)) (bad : migration)
    (vb : Js.number) (payload : string) :
  stored c = Some d ->
  doc_locked d = false ->
  Js.strict_eq (doc_version d) v = false ->
  _findIndexByVersion l (doc_version d) = Ok s ->
  _findIndexByVersion l v = Ok e ->
  plan_of l (doc_version d) v s e = (dir, (pre ++ (bad, vb) :: post)%list) ->
  Forall (resolves dir) pre ->
  method dir bad = Js.VFunction (Js.Rejects payload) ->
  exists t',
    exec (_migrateTo l v false) c
    = (Returned (Err (StepFailed payload)),
       {| stored := Some {| doc_version := last (map snd pre) (doc_version d);
                            doc_locked := false; doc_lockedAt := t' |};
          now := S t' |},
       EFindOne :: ev_lock 1
       :: (flat_map (plan_events dir) pre
           ++ [ECall dir bad [bad];
               ev_set false (last (map snd pre) (doc_version d))])%list).
Proof.
  intros Hd Hl Hne Hs He Hplan Hpre Hbad.
  destruct (run_is_walk l v c d s e Hd Hl Hne Hs He) as (t' & E).
  exists t'. rewrite E. clear E.
  unfold outcome_of. rewrite Hplan. cbn [fst snd].
  rewrite (walk_app dir pre _ _ Hpre). simpl walk.
  unfold callable. rewrite Hbad. simpl. rewrite <- app_assoc. reflexivity.
Qed.

Lemma run_stops_at_rejection_witness :
  exists t',
    exec (_migrateTo (list123 (Js.VFunction (Js.Rejects "boom"))) 3%Z false)
         (at_version 0%Z 0)
    = (Returned (Err (StepFailed "boom")),
       {| stored := Some {| doc_version := last (map snd [(step1, Js.of_Z 1)]) (Js.of_Z 0);
                            doc_locked := false; doc_lockedAt := t' |};
          now := S t' |},
       EFindOne :: ev_lock 1
       :: (flat_map (plan_events up_) [(step1, Js.of_Z 1)]
           ++ [ECall up_ (step2 (Js.VFunction (Js.Rejects "boom")))
                     [step2 (Js.VFunction (Js.Rejects "boom"))];
               ev_set false (last (map snd [(step1, Js.of_Z 1)]) (Js.of_Z 0))])%list).
Proof.
  refine (run_stops_at_rejection (list123 (Js.VFunction (Js.Rejects "boom")))
            3%Z (at_version 0%Z 0) _ 0 3 up_ [(step1, Js.of_Z 1)]
            [(step3, Js.of_Z 3)] (step2 (Js.VFunction (Js.Rejects "boom")))
            2%Z "boom" eq_refl eq_refl eq_refl eq_refl eq_refl eq_refl _ eq_refl).
  repeat constructor.
Defined.

(** X15: a run stops at the first step that lacks the method of the
    direction: the step is not called; the inner [migrate] unlocks, throws,
    and the [finally] unlocks once more, both writes carrying the last
    checkpointed version; the caller gets the "cannot migrate" error naming
    the direction and the step's version. *)
Theorem run_stops_at_missing_method (l : list migration) (v : Js.number) (c : db)
    (d : control_doc) (s e : nat) (dir : direction)
    (pre post : list (migration * Js.number)) (bad : migration)
    (vb : Js.number) :
  stored c = Some d ->
  doc_locked d = false ->
  Js.strict_eq (doc_version d) v = false ->
  _findIndexByVersion l (doc_version d) = Ok s ->
  _findIndexByVersion l v = Ok e ->
  plan_of l (doc_version d) v s e = (dir, (pre ++ (bad, vb) :: post)%list) ->
  Forall (resolves dir) pre ->
  callable (method dir bad) = false ->
  exists t',
    exec (_migrateTo l v false) c
    = (Returned (Err (CannotMigrate dir (version bad))),
       {| stored := Some {| doc_version := last (map snd pre) (doc_version d);
                            doc_locked := false; doc_lockedAt := t' |};
          now := S t' |},
       EFindOne :: ev_lock 1
       :: (flat_map (plan_events dir) pre
           ++ [ev_set false (last (map snd pre) (doc_version d));
               ev_set false (last (map snd pre) (doc_version d))])%list).
Proof.
  intros Hd Hl Hne Hs He Hplan Hpre Hbad.
  destruct (run_is_walk l v c d s e Hd Hl Hne Hs He) as (t' & E).
  exists t'. rewrite E. clear E.
  unfold outcome_of. rewrite Hplan. cbn [fst snd].
  rewrite (walk_app dir pre _ _ Hpre). simpl walk.
  rewrite Hbad. simpl. rewrite <- app_assoc. reflexivity.
Qed.

(** Steps 1, 2, 3 where step 2 has no [down]. *)
Definition step2_one_way : migration :=
  stored_step (step 2%Z "two" resolving Js.VUndefined).

Definition list123_one_way : list migration :=
  [DefaultMigration; step1; step2_one_way; step3].

Lemma run_stops_at_missing_method_witness :
  exists t',
    exec (_migrateTo list123_one_way 0%Z false) (at_version 3%Z 0)
    = (Returned (Err (CannotMigrate down_ (version step2_one_way))),
       {| stored := Some {| doc_version := last (map snd [(step3, Js.of_Z 2)]) (Js.of_Z 3);
                            doc_locked := false; doc_lockedAt := t' |};
          now := S t' |},
       EFindOne :: ev_lock 1
       :: (flat_map (plan_events down_) [(step3, Js.of_Z 2)]
           ++ [ev_set false (last (map snd [(step3, Js.of_Z 2)]) (Js.of_Z 3));
               ev_set false (last (map snd [(step3, Js.of_Z 2)]) (Js.of_Z 3))])%list).
Proof.
  refine (run_stops_at_missing_method list123_one_way 0%Z (at_version 3%Z 0) _
            3 0 down_ [(step3, Js.of_Z 2)] [(step1, Js.of_Z 0)] step2_one_way
            1%Z eq_refl eq_refl eq_refl eq_refl eq_refl eq_refl _ eq_refl).
  repeat constructor.
Defined.

Lemma neither_lt_nor_eq (a b x y : Js.number) :
  Js.strict_eq x a = true -> Js.strict_eq y b = true ->
  Js.strict_eq a b = false -> Js.lt a b = false -> Js.lt b a = true.
Proof.
  destruct a as [a|], b as [b|], x as [x|], y as [y|]; try discriminate.
  intros _ _. unfold Js.strict_eq, Js.lt.
  rewrite <- (Qcompare_antisym a b). destruct (a ?= b)%Q; simpl; congruence.
Qed.

(** The run of [_migrateTo] past the fast path, on an unlocked document, up
    to the two lookups. *)
Lemma exec_past_lookups (l : list migration) (v : Js.number) (c : db)
                        (d : control_doc) :
  stored c = Some d ->
  doc_locked d = false ->
  Js.strict_eq (doc_version d) v = false ->
  exec (_migrateTo l v false) c
  = (let locked := {| stored := Some {| doc_version := doc_version d;
                                        doc_locked := true;
                                        doc_lockedAt := S (now c) |};
                      now := S (S (now c)) |} in
     match _findIndexByVersion l (doc_version d), _findIndexByVersion l v with
     | Ok s, Ok e =>
         let '(x, c2, t) := exec (run_steps l (doc_version d) v s e) locked in
         (x, c2, EFindOne :: ev_lock 1 :: t)
     | Ok _, Err e => (Returned (Err e), locked, [EFindOne; ev_lock 1])
     | Err e, _ => (Returned (Err e), locked, [EFindOne; ev_lock 1])
     end).
Proof.
  intros Hd Hl Hne.
  unfold _migrateTo. rewrite exec_bind, (exec_getControl_found c d Hd).
  cbn [ctl_version negb andb]. rewrite Hne. cbv beta iota.
  unfold locked_run. rewrite exec_bind.
  rewrite (exec_lock_free {| stored := Some d; now := S (now c) |} d eq_refl Hl).
  cbn [Bool.eqb now]. cbv beta iota. unfold and_then.
  destruct (_findIndexByVersion l (doc_version d)) as [s|e1]; cbn [bind];
    [|reflexivity].
  destruct (_findIndexByVersion l v) as [e|e2]; cbn [bind]; [|reflexivity].
  destruct (exec (run_steps l (doc_version d) v s e) _) as [[x c2] t].
  reflexivity.
Qed.

(** X16: in a list built by [add] from ordinary version numbers, a
    migration that starts on an unlocked control document and returns
    without error has reached its target: the stored version [===] the
    target and the document is unlocked. *)
Theorem finished_run_reaches_target (l : list migration) (v : Js.number)
                                    (c : db) (d : control_doc) :
  ordinary_registry l ->
  stored c = Some d ->
  doc_locked d = false ->
  fst (fst (exec (_migrateTo l v false) c)) = Returned (Ok tt) ->
  exists d',
    stored (snd (fst (exec (_migrateTo l v false) c))) = Some d'
    /\ Js.strict_eq (doc_version d') v = true
    /\ doc_locked d' = false.
Proof.
  intros Hreg Hd Hl Hok.
  destruct (Js.strict_eq (doc_version d) v) eqn:Hne.
  - exists d. unfold _migrateTo.
    rewrite exec_bind, (exec_getControl_found c d Hd).
    cbn [ctl_version negb andb]. rewrite Hne. simpl. auto.
  - pose proof Hok as Hok'.
    rewrite (exec_past_lookups l v c d Hd Hl Hne) in Hok'. cbv zeta in Hok'.
    destruct (_findIndexByVersion l (doc_version d)) as [s|e1] eqn:Hs;
      [|discriminate].
    destruct (_findIndexByVersion l v) as [e|e2] eqn:He; [|discriminate].
    clear Hok'.
    destruct (run_is_walk l v c d s e Hd Hl Hne Hs He) as (t' & E).
    rewrite E in Hok. rewrite E. cbn [fst snd stored] in *.
    assert (Hr : snd (outcome_of l (doc_version d) v s e) = Ok tt)
      by congruence.
    clear Hok E.
    eexists. split; [reflexivity|]. cbn [doc_version doc_locked].
    split; [|reflexivity].
    destruct (found_in_range _ _ _ He) as (me & Hme & Hve).
    destruct (found_in_range _ _ _ Hs) as (ms & Hms & Hvs).
    assert (Ls : (s < List.length l)%nat)
      by (apply nth_error_Some; congruence).
    unfold outcome_of in *.
    destruct (walk _ _ _) as [[t cv'] r] eqn:W. cbn [fst snd] in *. subst r.
    rewrite (walk_Ok _ _ _ _ _ W). unfold plan_of.
    destruct (Js.lt (doc_version d) v) eqn:Hlt; cbn [snd].
    + rewrite (up_plan_last l s e me _
                 (proj1 (index_order l _ _ s e Hreg Hs He) Hlt) Hme).
      exact Hve.
    + assert (Hgt : Js.lt v (doc_version d) = true)
        by exact (neither_lt_nor_eq _ _ _ _ Hvs Hve Hne Hlt).
      rewrite (down_plan_last l s e me _
                 (proj1 (index_order l _ _ e s Hreg He Hs) Hgt) Ls Hme).
      exact Hve.
Qed.

Lemma finished_run_reaches_target_witness :
  exists d',
    stored (snd (fst (exec (_migrateTo (list123 resolving) 1%Z false)
                           (at_version 3%Z 0)))) = Some d'
    /\ Js.strict_eq (doc_version d') 1%Z = true
    /\ doc_locked d' = false.
Proof.
  refine (finished_run_reaches_target (list123 resolving) 1%Z (at_version 3%Z 0)
            _ _ eq_refl eq_refl eq_refl).
  exists (adds123 resolving). split; [|reflexivity].
  repeat constructor; discriminate.
Defined.

(** ** Which steps the sequential path calls *)

(** Calls of elements past index 0, with the element as only argument. *)
Definition past_sentinel (l : list migration) (d : direction)
                         (callee : migration) (args : list migration) : Prop :=
  In callee (tl l) /\ args = [callee].

Lemma nodes_migrate_past (l : list migration) cv d idx :
  (1 <= idx)%nat ->
  all_nodes (past_sentinel l) (fun _ => True) (migrate l cv d idx).
Proof.
  intros Hidx. unfold migrate. destruct (nth_error l idx) as [m|] eqn:E.
  - destruct (negb _).
    + repeat constructor.
    + constructor.
      * split; [|reflexivity]. destruct l as [|x r]; [now destruct idx|].
        destruct idx as [|k]; [lia|]. simpl in *.
        eapply nth_error_In; eassumption.
      * intros [|payload]; now constructor.
  - now constructor.
Qed.

Lemma nodes_loop_up_past (l : list migration) n : forall i cv,
  all_nodes (past_sentinel l) (fun _ => True) (loop_up l n i cv).
Proof.
  induction n as [|n IH]; intros i cv; [now constructor|].
  rewrite loop_up_S.
  eapply all_nodes_bind; [apply nodes_migrate_past; lia|].
  intros [[]|e] _; [|now constructor].
  destruct (version_at l (i + 1)) as [v|e]; [|now constructor].
  simpl. constructor. intros _. apply IH.
Qed.

Lemma nodes_loop_down_past (l : list migration) n : forall i cv,
  (n <= i)%nat ->
  all_nodes (past_sentinel l) (fun _ => True) (loop_down l n i cv).
Proof.
  induction n as [|n IH]; intros i cv Hn; [now constructor|].
  rewrite loop_down_S.
  eapply all_nodes_bind; [apply nodes_migrate_past; lia|].
  intros [[]|e] _; [|now constructor].
  destruct (version_at l (i - 1)) as [v|e]; [|now constructor].
  simpl. constructor. intros _. apply IH. lia.
Qed.

Lemma nodes_sequential_past (l : list migration) (v : Js.number) :
  all_nodes (past_sentinel l) (fun _ => True) (_migrateTo l v false).
Proof.
  unfold _migrateTo.
  eapply all_nodes_bind with (R := fun _ => True).
  { constructor. intros [d|]; repeat constructor. }
  intros ctl _.
  destruct (negb false && Js.strict_eq (ctl_version ctl) v); [now constructor|].
  unfold locked_run, lock. simpl. constructor. intros n.
  destruct (Bool.eqb (Nat.eqb n 1) false); [now constructor|].
  unfold and_then. simpl.
  destruct (_findIndexByVersion l (ctl_version ctl)) as [s|e1];
    [|now constructor].
  destruct (_findIndexByVersion l v) as [e|e2]; [|now constructor].
  unfold run_steps.
  eapply all_nodes_bind with (R := fun _ => True).
  - destruct (Js.lt (ctl_version ctl) v);
      [apply nodes_loop_up_past|apply nodes_loop_down_past; lia].
  - intros r _. simpl. constructor. intros _. now constructor.
Qed.

(** X17: without [rerun], [_migrateTo] never calls a method of the
    sentinel: every step body it calls belongs to a step registered by
    [add], so the object it is handed is frozen. *)
Theorem sequential_path_calls_frozen_steps (cs : list candidate)
    (l : list migration) (v : Js.number) (c : db) :
  add_all initial_list cs = Ok l ->
  Forall (fun e => match e with
                   | ECall _ callee args =>
                       In callee (map stored_step cs)
                       /\ frozen callee = true
                       /\ args = [callee]
                   | _ => True
                   end)
         (snd (exec (_migrateTo l v false) c)).
Proof.
  intros H.
  destruct (add_all_sentinel cs [] l (Forall_nil _) H) as (r & -> & _).
  pose proof (add_all_perm _ _ _ H) as P. simpl in P.
  apply Permutation_cons_inv in P.
  pose proof (proj1 (all_nodes_exec _ _ _
                       (nodes_sequential_past (DefaultMigration :: r) v) c)) as F.
  eapply Forall_impl; [|exact F].
  intros [| |d callee args|]; simpl; trivial.
  intros (Hin & Ha).
  pose proof (Permutation_in _ P Hin) as Hin'.
  repeat split; try assumption.
  apply in_map_iff in Hin'. now destruct Hin' as (c0 & <- & _).
Qed.

Lemma sequential_path_calls_frozen_steps_witness :
  Forall (fun e => match e with
                   | ECall _ callee args =>
                       In callee (map stored_step (adds123 resolving))
                       /\ frozen callee = true
                       /\ args = [callee]
                   | _ => True
                   end)
         (snd (exec (_migrateTo (list123 resolving) 0%Z false) (at_version 3%Z 0))).
Proof.
  exact (sequential_path_calls_frozen_steps (adds123 resolving)
           (list123 resolving) 0%Z (at_version 3%Z 0) eq_refl).
Defined.

(* ================================================================== *)
(** * Further properties of the commands *)

Lemma split_first_piece (sep : ascii) (s : string) : forall a b,
  split sep s = [a; b] -> split sep a = [a].
Proof.
  induction s as [|ch rest IH]; intros a b H; simpl in H; [discriminate|].
  destruct (Ascii.eqb ch sep) eqn:E.
  - inversion H; subst. reflexivity.
  - destruct (split sep rest) as [|piece pieces] eqn:S; [discriminate|].
    inversion H; subst. simpl. rewrite E.
    now rewrite (IH piece b eq_refl).
Qed.

Lemma split_never_empty (sep : ascii) (s : string) : split sep s <> [].
Proof.
  destruct s as [|ch rest]; simpl; [discriminate|].
  destruct (Ascii.eqb ch sep); [discriminate|].
  destruct (split sep rest); discriminate.
Qed.

(** Splitting at a separator that is written out. *)
Lemma split_app (sep : ascii) (s t : string) :
  split sep (s ++ String sep t) = (split sep s ++ split sep t)%list.
Proof.
  induction s as [|ch rest IH]; simpl.
  - now rewrite Ascii.eqb_refl.
  - destruct (Ascii.eqb ch sep); [now rewrite IH|].
    rewrite IH.
    destruct (split sep rest) as [|piece pieces] eqn:E;
      [now elim (split_never_empty sep rest)|reflexivity].
Qed.

Lemma split_single (sep : ascii) (s : string) : forall a,
  split sep s = [a] -> a = s.
Proof.
  induction s as [|ch rest IH]; intros a H; simpl in H.
  - now inversion H.
  - destruct (Ascii.eqb ch sep).
    + inversion H as [[H1 H2]]. now elim (split_never_empty sep rest).
    + destruct (split sep rest) as [|piece pieces] eqn:E;
        [now elim (split_never_empty sep rest)|].
      inversion H; subst. f_equal. now apply IH.
Qed.

Lemma exec_then_return (p : prog (result unit)) (c : db) :
  exec (_ <-? p ;; Return (Ok tt)) c = exec p c.
Proof.
  unfold and_then. rewrite exec_bind.
  destruct (exec p c) as [[[[[]|e]|code] c1] t]; simpl;
    rewrite ?app_nil_r; reflexivity.
Qed.

(** The run of a command [vs ++ ",exit"]. *)
Lemma exit_suffix_run (l : list migration) (s vs : string) (c : db) :
  split "," s = [vs; "exit"] ->
  vs <> "" ->
  exec (migrateTo l (CmdString s)) c
  = match exec (migrateTo l (CmdString vs)) c with
    | (Returned (Ok _), c1, t) => (Exited 0%Z, c1, (t ++ [EExit 0%Z])%list)
    | other => other
    end.
Proof.
  intros Hs Hvs.
  assert (Hs0 : String.eqb s "" = false)
    by (destruct s; [discriminate Hs|reflexivity]).
  assert (Hv0 : String.eqb vs "" = false)
    by (destruct vs; [now elim Hvs|reflexivity]).
  pose proof (split_first_piece _ _ _ _ Hs) as Hv.
  unfold migrateTo. rewrite Hs0, Hv0, Hs, Hv. simpl orb.
  destruct (Nat.eqb (List.length l) 0); [reflexivity|].
  cbn [hd nth_error is_subcommand].
  change (String.eqb "exit" "rerun") with false.
  change (String.eqb "exit" "exit") with true. cbv iota.
  set (P := if is_string (inr vs) "latest" then _ else _).
  unfold and_then at 1. rewrite exec_bind.
  change (exec (_ <-? P ;; Return (Ok tt)) c) with
    (exec (and_then P (fun _ => Return (Ok tt))) c).
  rewrite (exec_then_return P c).
  destruct (exec P c) as [[[[[]|e]|code] c1] t]; simpl;
    rewrite ?app_nil_r; reflexivity.
Qed.

(** X18: appending [",exit"] to a command without subcommand (no comma in
    it) changes one thing: when the migration returns without error the
    process exits with code 0 instead of returning; when it throws, the
    error is rethrown and the process does not exit.  Appending it to a
    command that already has a subcommand, as ["2,rerun"], changes nothing:
    only the piece after the first comma is read. *)
Theorem exit_only_after_success (l : list migration) (s : string) (c : db) :
  s <> "" ->
  match split "," s with
  | [_] =>
      exec (migrateTo l (CmdString (s ++ ",exit"))) c
      = match exec (migrateTo l (CmdString s)) c with
        | (Returned (Ok _), c1, t) => (Exited 0%Z, c1, (t ++ [EExit 0%Z])%list)
        | other => other
        end
  | _ => migrateTo l (CmdString (s ++ ",exit")) = migrateTo l (CmdString s)
  end.
Proof.
  intros Hs.
  pose proof (split_app "," s "exit") as Happ.
  change (split "," "exit") with ["exit"] in Happ.
  destruct (split "," s) as [|vs [|sub rest]] eqn:E.
  - now elim (split_never_empty "," s).
  - apply split_single in E. subst vs.
    apply exit_suffix_run; assumption.
  - assert (Hs0 : String.eqb s "" = false)
      by (destruct (String.eqb_spec s ""); [now elim Hs|reflexivity]).
    assert (Hs1 : String.eqb (s ++ ",exit") "" = false)
      by (destruct s; reflexivity).
    unfold migrateTo. rewrite Hs0, Hs1, Happ, E. reflexivity.
Qed.

Lemma exit_only_after_success_witness :
  exec (migrateTo (list123 resolving) (CmdString ("latest" ++ ",exit")))
       (at_version 2%Z 0)
  = match exec (migrateTo (list123 resolving) (CmdString "latest"))
               (at_version 2%Z 0) with
    | (Returned (Ok _), c1, t) => (Exited 0%Z, c1, (t ++ [EExit 0%Z])%list)
    | other => other
    end.
Proof.
  refine (exit_only_after_success (list123 resolving) "latest"
            (at_version 2%Z 0) _).
  discriminate.
Defined.

(** With a subcommand already there, [",exit"] is not read. *)
Example exit_after_rerun_is_ignored :
  migrateTo (list123 resolving) (CmdString "2,rerun,exit")
  = migrateTo (list123 resolving) (CmdString "2,rerun").
Proof. reflexivity. Qed.

Lemma ordinary_registry_finite l :
  ordinary_registry l -> Forall (fun m => finite (version m)) l.
Proof.
  intros (cs & Hcs & H).
  eapply Permutation_Forall;
    [apply Permutation_sym, (add_all_perm _ _ _ H)|].
  constructor; [discriminate|].
  pose proof (add_all_accepts _ _ _ H) as Acc.
  apply Forall_forall. intros m Hm.
  apply in_map_iff in Hm. destruct Hm as (c0 & <- & Hc).
  rewrite Forall_forall in Hcs, Acc.
  destruct (Acc c0 Hc) as (v & Hv & _). specialize (Hcs c0 Hc).
  unfold stored_step, ordinary, finite in *. simpl. rewrite Hv in *. congruence.
Qed.

Lemma le_refl_finite (a : Js.number) : finite a -> Js.le a a = true.
Proof.
  destruct a as [x|]; [intros _|now intros H; elim H].
  apply le_Qle, Qle_refl.
Qed.

Lemma sorted_below_last l : forall top,
  StronglySorted ascending l ->
  Forall (fun m => finite (version m)) l ->
  nth_error l (List.length l - 1) = Some top ->
  Forall (fun m => Js.le (version m) (version top) = true) l.
Proof.
  intros top Hs Hf Htop. apply Forall_forall. intros m Hm.
  apply In_nth_error in Hm. destruct Hm as (i & Hi).
  assert (Hlen : (i < List.length l)%nat)
    by (apply nth_error_Some; congruence).
  destruct (Nat.eq_dec i (List.length l - 1)) as [->|Hne].
  - rewrite Htop in Hi. inversion Hi; subst.
    apply le_refl_finite. rewrite Forall_forall in Hf. apply Hf.
    eapply nth_error_In; eassumption.
  - apply (sorted_nth l i (List.length l - 1)); try assumption. lia.
Qed.

(** X19: in a list built by [add] from ordinary version numbers,
    ["latest"] stands for the greatest registered version: the command runs
    [_migrateTo] with the version of the last element, and no element has a
    greater one. *)
Theorem latest_is_greatest (l : list migration) (c : db) :
  ordinary_registry l ->
  exists top,
    In top l
    /\ Forall (fun m => Js.le (version m) (version top) = true) l
    /\ exec (migrateTo l (CmdString "latest")) c
       = exec (_migrateTo l (version top) false) c.
Proof.
  intros Hreg.
  assert (Hne : l <> []).
  { destruct Hreg as (cs & _ & H). apply registry_nonempty. now exists cs. }
  destruct (nth_error l (List.length l - 1)) as [top|] eqn:Htop.
  2:{ apply nth_error_None in Htop. destruct l; [now elim Hne|simpl in *; lia]. }
  exists top. split; [eapply nth_error_In; eassumption|]. split.
  - apply sorted_below_last; try assumption.
    + now apply ordinary_registry_sorted.
    + now apply ordinary_registry_finite.
  - unfold migrateTo. destruct l as [|m0 l']; [now elim Hne|].
    simpl orb. cbv iota.
    change (is_string (inr (hd "" (split "," "latest"))) "latest") with true.
    cbv iota beta.
    change (nth_error (split "," "latest") 1) with (@None string).
    unfold version_at. rewrite Htop.
    change (is_subcommand None "exit") with false. cbv iota.
    unfold and_then at 2. cbn [bind].
    apply exec_then_return.
Qed.

Lemma latest_is_greatest_witness :
  exists top,
    In top (list123 resolving)
    /\ Forall (fun m => Js.le (version m) (version top) = true) (list123 resolving)
    /\ exec (migrateTo (list123 resolving) (CmdString "latest")) (at_version 0%Z 0)
       = exec (_migrateTo (list123 resolving) (version top) false) (at_version 0%Z 0).
Proof.
  refine (latest_is_greatest (list123 resolving) (at_version 0%Z 0) _).
  exists (adds123 resolving). split; [|reflexivity].
  repeat constructor; discriminate.
Defined.

(** X20: [_reset] forgets everything: whatever the list and the collection
    were, afterwards the list is the initial one and no control document is
    stored, so that [getVersion] answers 0 again (creating the document
    anew) and [migrateTo("latest")] has nothing to run. *)
Theorem reset_starts_over (c : db) :
  let '(l', removed, c') := _reset c in
  l' = initial_list
  /\ removed = (match stored c with Some _ => 1%nat | None => 0%nat end)
  /\ stored c' = None
  /\ fst (fst (exec getVersion c')) = Returned (Js.of_Z 0)
  /\ snd (exec (migrateTo l' (CmdString "latest")) c')
     = [EFindOne; ev_set false 0%Z].
Proof.
  unfold _reset, removeAsync. repeat split; reflexivity.
Qed.

(** ** A number and its decimal string *)

From Stdlib Require Import DecimalString DecimalN.

(** [String(n)] for a non-negative integer below 1e21: its decimal
    digits, most significant first. *)
Definition decimal (n : N) : string :=
  NilZero.string_of_uint (N.to_uint n).

(** The value of a digit sequence read from the left, [acc] being the value
    of what was read before. *)
Fixpoint digits_value (d : Decimal.uint) (acc : Z) : Z :=
  match d with
  | Decimal.Nil => acc
  | Decimal.D0 r => digits_value r (10 * acc + 0)
  | Decimal.D1 r => digits_value r (10 * acc + 1)
  | Decimal.D2 r => digits_value r (10 * acc + 2)
  | Decimal.D3 r => digits_value r (10 * acc + 3)
  | Decimal.D4 r => digits_value r (10 * acc + 4)
  | Decimal.D5 r => digits_value r (10 * acc + 5)
  | Decimal.D6 r => digits_value r (10 * acc + 6)
  | Decimal.D7 r => digits_value r (10 * acc + 7)
  | Decimal.D8 r => digits_value r (10 * acc + 8)
  | Decimal.D9 r => digits_value r (10 * acc + 9)
  end.

Lemma digits_value_acc (d : Decimal.uint) : forall p : positive,
  digits_value d (Zpos p) = Zpos (Pos.of_uint_acc d p).
Proof.
  induction d as [|r IH|r IH|r IH|r IH|r IH|r IH|r IH|r IH|r IH|r IH];
    intros p; cbn [digits_value Pos.of_uint_acc]; [reflexivity|..];
    rewrite <- IH; f_equal; lia.
Qed.

Lemma digits_value_of_uint (d : Decimal.uint) :
  digits_value d 0 = Z.of_N (Pos.of_uint d).
Proof.
  induction d as [|r IH|r IH|r IH|r IH|r IH|r IH|r IH|r IH|r IH|r IH];
    cbn [digits_value Pos.of_uint Z.of_N]; [reflexivity|exact IH|..];
    rewrite <- digits_value_acc; reflexivity.
Qed.

Lemma leading_digits_render (d : Decimal.uint) : forall a : Z,
  leading_digits 10 (NilEmpty.string_of_uint d) (Some a)
  = Some (digits_value d a).
Proof.
  induction d as [|r IH|r IH|r IH|r IH|r IH|r IH|r IH|r IH|r IH|r IH];
    intros a; [reflexivity|..];
    (etransitivity; [|apply IH]); reflexivity.
Qed.

Lemma parseInt_render (d : Decimal.uint) :
  d <> Decimal.Nil ->
  parseInt_string (NilEmpty.string_of_uint d) = Js.of_Z (1 * digits_value d 0).
Proof.
  intros Hd. destruct d as [|r|r|r|r|r|r|r|r|r|r]; [now elim Hd|..].
  (* a leading zero: the next character is a digit, not an "x" *)
  1: destruct r as [|r|r|r|r|r|r|r|r|r|r].
  all: unfold parseInt_string; simpl; rewrite ?leading_digits_render;
    reflexivity.
Qed.

(** Reading back the decimal digits of [n] gives [n]. *)
Lemma parseInt_decimal (n : N) :
  parseInt_string (decimal n) = Js.of_Z (Z.of_N n).
Proof.
  unfold decimal, NilZero.string_of_uint.
  destruct (N.to_uint n) as [|r|r|r|r|r|r|r|r|r|r] eqn:E;
    try (rewrite <- E, parseInt_render, Z.mul_1_l, digits_value_of_uint;
         [change (Pos.of_uint (N.to_uint n)) with (N.of_uint (N.to_uint n));
          now rewrite DecimalN.Unsigned.of_to
         |rewrite E; discriminate]).
  exfalso. destruct n as [|p]; [discriminate|].
  exact (DecimalPos.Unsigned.to_uint_nonnil p E).
Qed.

Definition digit_char (c : ascii) : bool :=
  ((48 <=? nat_of_ascii c) && (nat_of_ascii c <=? 57))%nat.

Fixpoint digits_only (s : string) : bool :=
  match s with
  | EmptyString => true
  | String c rest => digit_char c && digits_only rest
  end.

Lemma render_digits_only (d : Decimal.uint) :
  digits_only (NilEmpty.string_of_uint d) = true.
Proof.
  induction d as [|r IH|r IH|r IH|r IH|r IH|r IH|r IH|r IH|r IH|r IH];
    simpl; auto.
Qed.

Lemma decimal_digits_only (n : N) :
  digits_only (decimal n) = true /\ String.eqb (decimal n) "" = false.
Proof.
  unfold decimal, NilZero.string_of_uint.
  destruct (N.to_uint n) as [|r|r|r|r|r|r|r|r|r|r]; split;
    try reflexivity; simpl; apply render_digits_only.
Qed.

Lemma split_digits_only (s : string) :
  digits_only s = true -> split "," s = [s].
Proof.
  induction s as [|c rest IH]; [reflexivity|]. simpl.
  intros H. apply andb_true_iff in H. destruct H as [Hc Hr].
  destruct (Ascii.eqb_spec c ",") as [->|_]; [discriminate|].
  now rewrite (IH Hr).
Qed.

Lemma digits_not_latest (s : string) :
  digits_only s = true -> String.eqb s "latest" = false.
Proof.
  destruct s as [|c rest]; [reflexivity|]. simpl.
  intros H. apply andb_true_iff in H. destruct H as [Hc _].
  destruct (Ascii.eqb_spec c "l") as [->|_]; [discriminate|reflexivity].
Qed.

(** X21: a bare non-negative integer (below 1e21, where a number is
    rendered without exponent) and the string of its decimal digits are the
    same command: [migrateTo(n)] is [migrateTo(String(n))]. *)
Theorem integer_command_is_its_decimal (l : list migration) (n : N) :
  (Z.of_N n < 10 ^ 21)%Z ->
  migrateTo l (CmdNumber (Js.of_Z (Z.of_N n)))
  = migrateTo l (CmdString (decimal n)).
Proof.
  intros _.
  destruct (decimal_digits_only n) as [Hd He].
  unfold migrateTo. rewrite He, (split_digits_only _ Hd). simpl orb.
  destruct (Nat.eqb (List.length l) 0); [reflexivity|].
  cbn [hd nth_error is_string is_subcommand].
  rewrite (digits_not_latest _ Hd).
  unfold parseInt. rewrite parseInt_decimal.
  unfold parseInt_number, Js.of_Z, inject_Z. cbn [Qnum Qden].
  now rewrite Z.quot_1_r.
Qed.

Lemma integer_command_is_its_decimal_witness :
  migrateTo (list123 resolving) (CmdNumber (Js.of_Z (Z.of_N 3)))
  = migrateTo (list123 resolving) (CmdString (decimal 3)).
Proof.
  refine (integer_command_is_its_decimal (list123 resolving) 3 _).
  reflexivity.
Defined.

(** ** Commands that name no version *)

(** X22: a command of ASCII characters whose version part is neither
    ["latest"] nor a number (its [parseInt] is NaN) and that does not ask
    for a rerun takes the lock and then fails in the lookup of NaN: the
    caller gets "can't find migration version NaN" and the control document
    is left [locked: true]. *)
Theorem non_numeric_command_keeps_lock (l : list migration) (s vs : string)
    (sub : option string) (c : db) (d : control_doc) (i : nat) :
  stored c = Some d ->
  doc_locked d = false ->
  _findIndexByVersion l (doc_version d) = Ok i ->
  hd "" (split "," s) = vs ->
  nth_error (split "," s) 1 = sub ->
  s <> "" ->
  vs <> "latest" ->
  ascii_only vs = true ->
  parseInt_string vs = Js.NaN ->
  is_subcommand sub "rerun" = false ->
  exec (migrateTo l (CmdString s)) c
  = (Returned (Err (CantFindVersion Js.NaN)),
     {| stored := Some {| doc_version := doc_version d; doc_locked := true;
                          doc_lockedAt := S (now c) |};
        now := S (S (now c)) |},
     [EFindOne; ev_lock 1]).
Proof.
  intros Hd Hl Hi Hvs Hsub Hs Hlatest _ Hnan Hrerun.
  assert (Hs0 : String.eqb s "" = false)
    by (destruct (String.eqb_spec s ""); [now elim Hs|reflexivity]).
  assert (Hl0 : Nat.eqb (List.length l) 0 = false)
    by (destruct l; [discriminate Hi|reflexivity]).
  assert (Hv0 : String.eqb vs "latest" = false)
    by (destruct (String.eqb_spec vs "latest"); [now elim Hlatest|reflexivity]).
  unfold migrateTo. rewrite Hs0, Hl0, Hvs, Hsub. simpl orb. cbv iota.
  unfold is_string. rewrite Hv0, Hrerun. unfold parseInt. rewrite Hnan.
  unfold and_then. rewrite exec_bind.
  rewrite (exec_past_lookups l Js.NaN c d Hd Hl (strict_eq_NaN _)).
  rewrite Hi, findIndexByVersion_NaN. reflexivity.
Qed.

Lemma non_numeric_command_keeps_lock_witness :
  exec (migrateTo (list123 resolving) (CmdString "newest,exit")) (at_version 1%Z 0)
  = (Returned (Err (CantFindVersion Js.NaN)),
     {| stored := Some {| doc_version := 1%Z; doc_locked := true;
                          doc_lockedAt := 1 |};
        now := 2 |},
     [EFindOne; ev_lock 1]).
Proof.
  refine (non_numeric_command_keeps_lock (list123 resolving) "newest,exit"
            "newest" (Some "exit") (at_version 1%Z 0) _ 1
            eq_refl eq_refl eq_refl eq_refl eq_refl _ _ eq_refl eq_refl
            eq_refl);
    discriminate.
Defined.

(** X23: every step in the list whose version is an ordinary number can be
    looked up: [_findIndexByVersion] answers the index of the first element
    with that version (no element before it has that version). *)
Theorem listed_version_is_found (l : list migration) (m : migration) :
  In m l ->
  finite (version m) ->
  exists i m',
    _findIndexByVersion l (version m) = Ok i
    /\ nth_error l i = Some m'
    /\ Js.strict_eq (version m') (version m) = true
    /\ Forall (differs (version m)) (firstn i l).
Proof.
  intros Hin Hfin.
  destruct (_findIndexByVersion l (version m)) as [i|e] eqn:F.
  - destruct (proj1 (find_index_first _ _ _) F) as ((m' & Hn & Hv) & Hfirst).
    now exists i, m'.
  - exfalso. apply find_index_missing in F. destruct F as [_ F].
    rewrite Forall_forall in F. specialize (F m Hin). unfold differs in F.
    pose proof (le_refl_finite _ Hfin) as L.
    rewrite (le_antisym _ _ L L) in F. discriminate.
Qed.

Lemma listed_version_is_found_witness :
  exists i m',
    _findIndexByVersion (list123 resolving) (version step3) = Ok i
    /\ nth_error (list123 resolving) i = Some m'
    /\ Js.strict_eq (version m') (version step3) = true
    /\ Forall (differs (version step3)) (firstn i (list123 resolving)).
Proof.
  refine (listed_version_is_found (list123 resolving) step3 _ _).
  - simpl. auto.
  - discriminate.
Defined.

(* ================================================================== *)
(** * Rerun of a registered version *)

(** "The command [cmd] runs [up] of the step at version [v], and no other
    step." *)
Definition rerun_runs_step_at (l : list migration) (cmd : string)
                              (v : Js.number) (c : db) : Prop :=
  exists m,
    In m l
    /\ Js.strict_eq (version m) v = true
    /\ filter is_call (snd (exec (migrateTo l (CmdString cmd)) c))
       = [ECall up_ m [m]].

(** Versions 1 and 1.5, both accepted by [add]. *)
Definition step_one_and_a_half : migration :=
  stored_step (step (Js.Num (3 # 2)) "one and a half" resolving resolving).

Definition list_with_half : list migration :=
  [DefaultMigration; step1; step_one_and_a_half].

Lemma list_with_half_registry :
  add_all initial_list
    [step (Js.Num (3 # 2)) "one and a half" resolving resolving;
     step 1%Z "one" resolving resolving]
  = Ok list_with_half.
Proof. reflexivity. Qed.

(** C8, as stated, fails for a registered version that is not an integer:
    [parseInt] cuts ["1.5"] to 1, so ["1.5,rerun"] reruns the step at
    version 1 and leaves the step at version 1.5 alone. *)
Lemma rerun_of_one_and_a_half_runs_step_one :
  filter is_call
    (snd (exec (migrateTo list_with_half (CmdString "1.5,rerun"))
               (at_version 0%Z 0)))
  = [ECall up_ step1 [step1]]
  /\ ~ rerun_runs_step_at list_with_half "1.5,rerun" (Js.Num (3 # 2))
                          (at_version 0%Z 0).
Proof.
  split; [reflexivity|].
  intros (m & _ & Hv & Hc). vm_compute in Hc. inversion Hc; subst m.
  vm_compute in Hv. discriminate.
Qed.

(** The rerun branch on a collection without control document:
    [_getControl] creates it at version 0 first. *)
Lemma rerun_run_created (l : list migration) (v : Js.number) (idx : nat)
                        (m : migration) (c : db) :
  _findIndexByVersion l v = Ok idx ->
  nth_error l idx = Some m ->
  callable (up m) = true ->
  stored c = None ->
  exec (_migrateTo l v true) c
  = (Returned (completion (await_call (up m))),
     {| stored := Some {| doc_version := 0%Z; doc_locked := false;
                          doc_lockedAt := 3 + now c |};
        now := 4 + now c |},
     [EFindOne; ev_set false 0%Z; ev_lock 1; ECall up_ m [m]; ev_set false 0%Z]).
Proof.
  intros Hf Hn Hup Hd.
  unfold _migrateTo, _getControl, locked_run, lock, rerun_step, and_then.
  simpl. unfold findOneAsync, updateAsync. rewrite Hd. simpl.
  unfold updateAsync. simpl.
  rewrite Hf. simpl. unfold migrate. rewrite Hn.
  unfold callable in Hup. simpl method. rewrite Hup. simpl.
  destruct (await_call (up m)); reflexivity.
Qed.

(** C8, amended: for a registered version that is a non-negative integer
    [n] (at most 2^53), the command made of the decimal digits of [n] and
    [",rerun"], on a control document that is unlocked or absent, takes the
    lock, calls [up] of the step at version [n] once and calls nothing
    else, whatever the stored version is; the unlock writes back the
    version that was read (0 when the document was just created). *)
Theorem rerun_of_registered_integer (l : list migration) (n : N) (idx : nat)
                                    (c : db) :
  registry l ->
  (Z.of_N n <= 2 ^ 53)%Z ->
  _findIndexByVersion l (Js.of_Z (Z.of_N n)) = Ok idx ->
  (forall d, stored c = Some d -> doc_locked d = false) ->
  exists m,
    nth_error l idx = Some m
    /\ Js.strict_eq (version m) (Js.of_Z (Z.of_N n)) = true
    /\ exec (migrateTo l (CmdString (decimal n ++ ",rerun"))) c
       = match stored c with
         | Some d =>
             (Returned (completion (await_call (up m))),
              {| stored := Some {| doc_version := doc_version d;
                                   doc_locked := false;
                                   doc_lockedAt := 2 + now c |};
                 now := 3 + now c |},
              [EFindOne; ev_lock 1; ECall up_ m [m];
               ev_set false (doc_version d)])
         | None =>
             (Returned (completion (await_call (up m))),
              {| stored := Some {| doc_version := 0%Z; doc_locked := false;
                                   doc_lockedAt := 3 + now c |};
                 now := 4 + now c |},
              [EFindOne; ev_set false 0%Z; ev_lock 1; ECall up_ m [m];
               ev_set false 0%Z])
         end.
Proof.
  intros Hreg _ Hf Hfree.
  destruct (decimal_digits_only n) as [Hdig Hne].
  assert (Hsplit : split "," (decimal n ++ ",rerun") = [decimal n; "rerun"])
    by (rewrite split_app, (split_digits_only _ Hdig); reflexivity).
  rewrite <- (parseInt_decimal n) in Hf.
  destruct (stored c) as [d|] eqn:Hd.
  - destruct (rerun_command_runs_parsed_step l (decimal n ++ ",rerun")
                (decimal n) idx c d Hreg Hsplit Hf Hd (Hfree d eq_refl))
      as (m & Hn & Hv & E).
    exists m. rewrite <- (parseInt_decimal n). auto.
  - destruct (findIndexByVersion_spec _ _ _ Hf) as (m & Hn & Hv).
    exists m. rewrite <- (parseInt_decimal n).
    split; [assumption|]. split; [assumption|].
    assert (Hup : callable (up m) = true).
    { pose proof (registry_callable _ Hreg) as F.
      rewrite Forall_forall in F. apply F. eapply nth_error_In; eassumption. }
    assert (Hcmd : String.eqb (decimal n ++ ",rerun") "" = false).
    { destruct (String.eqb_spec (decimal n ++ ",rerun") "") as [E|];
        [|reflexivity].
      rewrite E in Hsplit. discriminate Hsplit. }
    assert (Hl0 : Nat.eqb (List.length l) 0 = false)
      by (destruct l; [discriminate Hf|reflexivity]).
    unfold migrateTo. rewrite Hcmd, Hl0, Hsplit. simpl orb. cbv iota.
    cbn [hd nth_error is_string is_subcommand].
    rewrite (digits_not_latest _ Hdig).
    change (String.eqb "rerun" "rerun") with true.
    change (String.eqb "rerun" "exit") with false.
    unfold and_then, parseInt. rewrite exec_bind.
    rewrite (rerun_run_created l _ idx m c Hf Hn Hup Hd).
    destruct (await_call (up m)); reflexivity.
Qed.

Lemma rerun_of_registered_integer_witness :
  exists m,
    nth_error (list123 resolving) 2 = Some m
    /\ Js.strict_eq (version m) (Js.of_Z (Z.of_N 2)) = true
    /\ exec (migrateTo (list123 resolving) (CmdString (decimal 2 ++ ",rerun")))
            (at_version 3%Z 0)
       = (Returned (completion (await_call (up m))),
          {| stored := Some {| doc_version := 3%Z; doc_locked := false;
                               doc_lockedAt := 2 |};
             now := 3 |},
          [EFindOne; ev_lock 1; ECall up_ m [m]; ev_set false 3%Z]).
Proof.
  refine (rerun_of_registered_integer (list123 resolving) 2 2 (at_version 3%Z 0)
            _ _ eq_refl _).
  - exists (adds123 resolving). reflexivity.
  - vm_compute. discriminate.
  - intros d H. inversion H; subst. reflexivity.
Defined.

(* ================================================================== *)
(** * The unlock written twice *)

(** A step without the method asked for makes [migrate] unlock (line 264)
    and throw; the [finally] block then unlocks again (line 326).  A second
    caller that takes the lock between the two writes loses it to the
    second one: it calls its step while the control document says
    [locked: false]. *)
Example second_unlock_clears_the_other_lock :
  let run := par [true; true; true; true; true; false; false; true; false]
                 (migrateTo list123_one_way (CmdNumber 0%Z))
                 (migrateTo list123_one_way (CmdString "latest"))
                 (at_version 3%Z 0) in
  marks (snd run)
  = [(true, Locked); (true, Called 3%Z); (true, Checkpointed);
     (true, Cleared); (false, Locked); (true, Cleared); (false, Called 3%Z)]
  /\ option_map doc_locked (stored (snd (fst run))) = Some false
  /\ monitor (Idle, Idle) (snd run) = Some (Released, Holding).
Proof. repeat split. Qed.
